(** * Concept-weaver job queue: a shallow embedding of [src/lib/queue.js]

    The development follows the source file top to bottom:
    - [JsString]: the String.prototype methods the worker relies on
      ([trim], [startsWith], [endsWith], [toLowerCase], [indexOf],
      [lastIndexOf], [slice], the default [Array.prototype.sort] order and
      the two regular-expression replacements of the slide cleaner);
    - [Json]: [JSON.parse];
    - the status registry, the effect signature of [processJob] and the
      event loop that interleaves [enqueue], timers and settled promises.

    JavaScript strings are sequences of UTF-16 code units; they are
    modelled as [list N], one number per code unit.  [js] turns an ASCII
    literal into such a sequence. *)

From Stdlib Require Import NArith ZArith String Ascii List Bool Lia.
From stdpp Require Import gmap list.

Local Open Scope N_scope.

Abbreviation jsstring := (list N).

Module JsString.

(** An ASCII literal as a sequence of code units. *)
Definition js (s : string) : jsstring :=
  map N_of_ascii (list_ascii_of_string s).
#[global] Arguments js s%_string.

(** The same with every backtick of the literal standing for a double
    quote. *)
Definition jsq (s : string) : jsstring :=
  map (fun c => if c =? 96 then 34 else c) (js s).
#[global] Arguments jsq s%_string.

(** WhiteSpace and LineTerminator of ECMAScript: what [trim] removes and
    what [\s] matches. *)
Definition is_space (c : N) : bool :=
  ((9 <=? c) && (c <=? 13)) || (c =? 32) || (c =? 160) || (c =? 5760)
  || ((8192 <=? c) && (c <=? 8202)) || (c =? 8232) || (c =? 8233)
  || (c =? 8239) || (c =? 8287) || (c =? 12288) || (c =? 65279).

Fixpoint trimStart (s : jsstring) : jsstring :=
  match s with
  | c :: r => if is_space c then trimStart r else s
  | [] => []
  end.

Definition trimEnd (s : jsstring) : jsstring := rev (trimStart (rev s)).

Definition trim (s : jsstring) : jsstring := trimEnd (trimStart s).

Fixpoint startsWith (s p : jsstring) : bool :=
  match p, s with
  | [], _ => true
  | x :: p', y :: s' => (x =? y) && startsWith s' p'
  | _ :: _, [] => false
  end.

Definition endsWith (s p : jsstring) : bool := startsWith (rev s) (rev p).

(** Lower-casing of one code unit.  ASCII and Latin-1 capitals move by
    32; U+0130 becomes "i" followed by U+0307 and the Kelvin sign U+212A
    becomes "k": these are the only code units above U+00FF whose
    lower-case form contains an ASCII letter.  Every other code unit is
    kept, so the result agrees with [String.prototype.toLowerCase] on
    every position that can take part in a comparison with an ASCII
    suffix. *)
Definition lower_unit (c : N) : jsstring :=
  if (65 <=? c) && (c <=? 90) then [c + 32]
  else if (192 <=? c) && (c <=? 222) && negb (c =? 215) then [c + 32]
  else if c =? 304 then [105; 775]
  else if c =? 8490 then [107]
  else [c].

Definition toLowerCase (s : jsstring) : jsstring := flat_map lower_unit s.

(** [indexOf] and [lastIndexOf] for a one-unit needle; [-1] when absent. *)
Fixpoint indexOf (s : jsstring) (c : N) : Z :=
  match s with
  | [] => (-1)%Z
  | x :: r =>
      if x =? c then 0%Z
      else let i := indexOf r c in
           if (i <? 0)%Z then (-1)%Z else (i + 1)%Z
  end.

Fixpoint lastIndexOf (s : jsstring) (c : N) : Z :=
  match s with
  | [] => (-1)%Z
  | x :: r =>
      let i := lastIndexOf r c in
      if (0 <=? i)%Z then (i + 1)%Z
      else if x =? c then 0%Z else (-1)%Z
  end.

(** [s.slice(from, to)]: negative positions count from the end, both are
    clamped to the string, an empty span when [to <= from]. *)
Definition clamp_index (len i : Z) : Z :=
  if (i <? 0)%Z then Z.max (len + i) 0 else Z.min i len.

Definition slice (s : jsstring) (from to : Z) : jsstring :=
  let len := Z.of_nat (length s) in
  let a := clamp_index len from in
  let b := clamp_index len to in
  take (Z.to_nat (b - a)) (drop (Z.to_nat a) s).

(** The order of the default [Array.prototype.sort]: code unit by code
    unit, a proper prefix first. *)
Fixpoint lt_units (a b : jsstring) : bool :=
  match a, b with
  | _, [] => false
  | [], _ :: _ => true
  | x :: a', y :: b' => (x <? y) || ((x =? y) && lt_units a' b')
  end.

Fixpoint sort_insert (x : jsstring) (l : list jsstring) : list jsstring :=
  match l with
  | [] => [x]
  | y :: r => if lt_units y x then y :: sort_insert x r else x :: l
  end.

(** [names.sort()] with no comparator. *)
Definition sort (l : list jsstring) : list jsstring :=
  fold_right sort_insert [] l.

(** Decimal rendering of a number inside a template literal. *)
Fixpoint digits_fuel (fuel : nat) (n : N) (acc : jsstring) : jsstring :=
  match fuel with
  | O => acc
  | S f =>
      let acc' := (48 + n mod 10) :: acc in
      if n <? 10 then acc' else digits_fuel f (n / 10) acc'
  end.

Definition toString (n : N) : jsstring :=
  digits_fuel (S (N.to_nat (N.log2 n))) n [].

(** ** The two replacements of the slide cleaner *)

(** Offset of the first [>] in [s]. *)
Fixpoint next_gt (s : jsstring) : option nat :=
  match s with
  | [] => None
  | c :: r => if c =? 62 then Some O else S <$> next_gt r
  end.

(** [s.replace(/<[^>]+>/g, ' ')].  A match starts at a [<] that is
    followed by at least one unit other than [>] and then a [>]; the
    scan resumes after that [>].  [skip] counts the units of the current
    match still to be dropped. *)
Fixpoint replace_tags_from (skip : nat) (s : jsstring) : jsstring :=
  match s with
  | [] => []
  | c :: r =>
      match skip with
      | S k => replace_tags_from k r
      | O =>
          if c =? 60 then
            match next_gt r with
            | Some (S n) => 32 :: replace_tags_from (S (S n)) r
            | _ => c :: replace_tags_from O r
            end
          else c :: replace_tags_from O r
      end
  end.

Definition replace_tags (s : jsstring) : jsstring := replace_tags_from O s.

(** [s.replace(/\s+/g, ' ')]: each maximal run of white space becomes one
    space. *)
Fixpoint replace_spaces_from (in_run : bool) (s : jsstring) : jsstring :=
  match s with
  | [] => []
  | c :: r =>
      if is_space c then
        if in_run then replace_spaces_from true r
        else 32 :: replace_spaces_from true r
      else c :: replace_spaces_from false r
  end.

Definition replace_spaces (s : jsstring) : jsstring :=
  replace_spaces_from false s.

End JsString.

Import JsString.


(** * JSON.parse

    The text is first cut into tokens by a one-pass automaton over code
    units, then the tokens drive a pushdown automaton whose stack holds
    the arrays and objects still open.  Both passes are total: [None]
    stands for the SyntaxError that [JSON.parse] throws.

    The result is the value as the text spells it: a number is kept as
    its (validated) lexeme rather than as the double it denotes, and an
    object as the list of its members in source order, repeated keys
    included.  The object [JSON.parse] builds from it has one property per
    key, the last member with that key, and lists integer-like keys
    first; the two agree on which texts are accepted and on the kind of
    the value. *)
Module Json.

#[local] Set Warnings "-register-all".

Inductive value :=
| JNull
| JBool (b : bool)
| JNumber (lexeme : jsstring)
| JString (s : jsstring)
| JArray (items : list value)
| JObject (members : list (jsstring * value)).

Inductive token :=
| TLBrace | TRBrace | TLBracket | TRBracket | TColon | TComma
| TString (s : jsstring)
| TNumber (lexeme : jsstring)
| TTrue | TFalse | TNull.

(** States of the number automaton: an optional minus sign, then a
    single zero or a non-zero digit followed by digits, then optionally
    a dot with one or more digits, then optionally an exponent mark with
    an optional sign and one or more digits. *)
Inductive num_state :=
| NMinus | NZero | NInt | NDot | NFrac | NExp | NExpSign | NExpDigits.

Inductive lex_mode :=
| LStart
| LString (acc : jsstring)
| LEscape (acc : jsstring)
| LUnicode (acc : jsstring) (hex : list N)
| LNumber (st : num_state) (acc : jsstring)
| LWord (rest : jsstring) (t : token).

Definition is_digit (c : N) : bool := (48 <=? c) && (c <=? 57).

Definition hex_value (c : N) : option N :=
  if is_digit c then Some (c - 48)
  else if (97 <=? c) && (c <=? 102) then Some (c - 87)
  else if (65 <=? c) && (c <=? 70) then Some (c - 55)
  else None.

Definition num_accepting (st : num_state) : bool :=
  match st with
  | NZero | NInt | NFrac | NExpDigits => true
  | _ => false
  end.

Definition num_next (st : num_state) (c : N) : option num_state :=
  let e := (c =? 101) || (c =? 69) in
  match st with
  | NMinus => if c =? 48 then Some NZero
              else if is_digit c then Some NInt else None
  | NZero => if c =? 46 then Some NDot else if e then Some NExp else None
  | NInt => if is_digit c then Some NInt
            else if c =? 46 then Some NDot
            else if e then Some NExp else None
  | NDot => if is_digit c then Some NFrac else None
  | NFrac => if is_digit c then Some NFrac
             else if e then Some NExp else None
  | NExp => if is_digit c then Some NExpDigits
            else if (c =? 43) || (c =? 45) then Some NExpSign else None
  | NExpSign | NExpDigits => if is_digit c then Some NExpDigits else None
  end.

(** JSON white space: tab, line feed, carriage return, space. *)
Definition is_json_space (c : N) : bool :=
  (c =? 9) || (c =? 10) || (c =? 13) || (c =? 32).

(** The unit [c] read between two tokens. *)
Definition lex_start (c : N) : option (lex_mode * list token) :=
  if is_json_space c then Some (LStart, [])
  else if c =? 123 then Some (LStart, [TLBrace])
  else if c =? 125 then Some (LStart, [TRBrace])
  else if c =? 91 then Some (LStart, [TLBracket])
  else if c =? 93 then Some (LStart, [TRBracket])
  else if c =? 58 then Some (LStart, [TColon])
  else if c =? 44 then Some (LStart, [TComma])
  else if c =? 34 then Some (LString [], [])
  else if c =? 45 then Some (LNumber NMinus [c], [])
  else if c =? 48 then Some (LNumber NZero [c], [])
  else if is_digit c then Some (LNumber NInt [c], [])
  else if c =? 116 then Some (LWord (js "rue") TTrue, [])
  else if c =? 102 then Some (LWord (js "alse") TFalse, [])
  else if c =? 110 then Some (LWord (js "ull") TNull, [])
  else None.

Definition unescape (c : N) : option N :=
  if c =? 34 then Some 34
  else if c =? 92 then Some 92
  else if c =? 47 then Some 47
  else if c =? 98 then Some 8
  else if c =? 102 then Some 12
  else if c =? 110 then Some 10
  else if c =? 114 then Some 13
  else if c =? 116 then Some 9
  else None.

Definition hex4 (ds : list N) : N :=
  fold_left (fun acc d => 16 * acc + d) ds 0.

Definition lex_step (m : lex_mode) (c : N) : option (lex_mode * list token) :=
  match m with
  | LStart => lex_start c
  | LString acc =>
      if c =? 34 then Some (LStart, [TString (rev acc)])
      else if c =? 92 then Some (LEscape acc, [])
      else if c <? 32 then None
      else Some (LString (c :: acc), [])
  | LEscape acc =>
      if c =? 117 then Some (LUnicode acc [], [])
      else match unescape c with
           | Some u => Some (LString (u :: acc), [])
           | None => None
           end
  | LUnicode acc hex =>
      match hex_value c with
      | Some d =>
          let hex' := hex ++ [d] in
          if Nat.eqb (length hex') 4 then Some (LString (hex4 hex' :: acc), [])
          else Some (LUnicode acc hex', [])
      | None => None
      end
  | LNumber st acc =>
      match num_next st c with
      | Some st' => Some (LNumber st' (c :: acc), [])
      | None =>
          if num_accepting st then
            match lex_start c with
            | Some (m', ts) => Some (m', TNumber (rev acc) :: ts)
            | None => None
            end
          else None
      end
  | LWord rest t =>
      match rest with
      | x :: rest' =>
          if c =? x then
            match rest' with
            | [] => Some (LStart, [t])
            | _ => Some (LWord rest' t, [])
            end
          else None
      | [] => None
      end
  end.

Definition lex_end (m : lex_mode) : option (list token) :=
  match m with
  | LStart => Some []
  | LNumber st acc =>
      if num_accepting st then Some [TNumber (rev acc)] else None
  | _ => None
  end.

Fixpoint lex_from (m : lex_mode) (s : jsstring) : option (list token) :=
  match s with
  | [] => lex_end m
  | c :: r =>
      match lex_step m c with
      | Some (m', ts) =>
          match lex_from m' r with
          | Some rest => Some (ts ++ rest)
          | None => None
          end
      | None => None
      end
  end.

Definition lex (s : jsstring) : option (list token) := lex_from LStart s.

(** An array or object still open: what it holds so far (latest first)
    and, for an object, the key waiting for its value. *)
Inductive frame :=
| FArray (items_rev : list value)
| FObject (members_rev : list (jsstring * value)) (key : option jsstring).

Inductive expect :=
| EValue
| EValueOrEnd
| EKeyOrEnd
| EKey
| EColon
| ENext
| EDone (v : value).

Definition pstate : Type := list frame * expect.

(** A complete value goes to the innermost open container. *)
Definition deliver (v : value) (stack : list frame) : option pstate :=
  match stack with
  | [] => Some ([], EDone v)
  | FArray items :: st => Some (FArray (v :: items) :: st, ENext)
  | FObject ms (Some k) :: st => Some (FObject ((k, v) :: ms) None :: st, ENext)
  | FObject _ None :: _ => None
  end.

Definition parse_value_token (stack : list frame) (t : token) : option pstate :=
  match t with
  | TNull => deliver JNull stack
  | TTrue => deliver (JBool true) stack
  | TFalse => deliver (JBool false) stack
  | TNumber n => deliver (JNumber n) stack
  | TString s => deliver (JString s) stack
  | TLBracket => Some (FArray [] :: stack, EValueOrEnd)
  | TLBrace => Some (FObject [] None :: stack, EKeyOrEnd)
  | _ => None
  end.

Definition set_key (k : jsstring) (stack : list frame) : option pstate :=
  match stack with
  | FObject ms None :: st => Some (FObject ms (Some k) :: st, EColon)
  | _ => None
  end.

Definition close_array (stack : list frame) : option pstate :=
  match stack with
  | FArray items :: st => deliver (JArray (rev items)) st
  | _ => None
  end.

Definition close_object (stack : list frame) : option pstate :=
  match stack with
  | FObject ms None :: st => deliver (JObject (rev ms)) st
  | _ => None
  end.

Definition parse_step (ps : pstate) (t : token) : option pstate :=
  let '(stack, e) := ps in
  match e, t with
  | EValue, _ => parse_value_token stack t
  | EValueOrEnd, TRBracket => close_array stack
  | EValueOrEnd, _ => parse_value_token stack t
  | EKeyOrEnd, TRBrace => close_object stack
  | EKeyOrEnd, TString k => set_key k stack
  | EKey, TString k => set_key k stack
  | EColon, TColon => Some (stack, EValue)
  | ENext, TComma =>
      match stack with
      | FArray _ :: _ => Some (stack, EValue)
      | FObject _ None :: _ => Some (stack, EKey)
      | _ => None
      end
  | ENext, TRBracket => close_array stack
  | ENext, TRBrace => close_object stack
  | _, _ => None
  end.

Fixpoint parse_tokens (ps : pstate) (ts : list token) : option value :=
  match ts with
  | [] => match ps with
          | ([], EDone v) => Some v
          | _ => None
          end
  | t :: r =>
      match parse_step ps t with
      | Some ps' => parse_tokens ps' r
      | None => None
      end
  end.

(** [JSON.parse(text)]; [None] when it throws. *)
Definition parse (text : jsstring) : option value :=
  match lex text with
  | Some ts => parse_tokens ([], EValue) ts
  | None => None
  end.

End Json.


(** * Data model *)

Record Job := { id : jsstring; savedLocation : jsstring }.

Inductive Status := Processing | Done | Error.

Record Result := { summary : jsstring; conceptMap : option Json.value }.

(** A status record is a JavaScript object in which each of the five
    properties may be missing. *)
Record StatusRecord := {
  status : option Status;
  startedAt : option jsstring;
  finishedAt : option jsstring;
  result : option Result;
  message : option jsstring
}.

(** The object literal with no property. *)
Definition empty_record : StatusRecord :=
  {| status := None; startedAt := None; finishedAt := None;
     result := None; message := None |}.

Definition or_else {A} (x y : option A) : option A :=
  match x with Some _ => x | None => y end.

(** The object literal with the properties of [base] first and the
    properties of [fields] after them: a property of [fields] wins, every
    other property of [base] is kept. *)
Definition spread (base fields : StatusRecord) : StatusRecord :=
  {| status := or_else (status fields) (status base);
     startedAt := or_else (startedAt fields) (startedAt base);
     finishedAt := or_else (finishedAt fields) (finishedAt base);
     result := or_else (result fields) (result base);
     message := or_else (message fields) (message base) |}.

(** [statuses[id] = { ...(statuses[id] || {}), fields }]. *)
Definition upsert (i : jsstring) (fields : StatusRecord)
    (statuses : gmap jsstring StatusRecord) : gmap jsstring StatusRecord :=
  <[ i := spread (default empty_record (statuses !! i)) fields ]> statuses.

(** * Effects of [processJob] *)

(** A thrown value or rejection reason, as the [catch] block meets it.
    JavaScript lets any value be thrown or be the reason of a rejection:
    [Nullish] is [null] or [undefined], on which reading a property is
    itself a [TypeError]; [Value msg] is any other value, seen through the
    only property the worker reads, [message], [None] when the value has no
    such property. *)
Inductive Thrown :=
| Nullish
| Value (msg : option jsstring).

(** [err.message], for an [err] on which the property can be read. *)
Definition thrown_message (err : Thrown) : option jsstring :=
  match err with
  | Value msg => msg
  | Nullish => None
  end.

(** [new Error(msg)]. *)
Definition new_Error (msg : jsstring) : Thrown := Value (Some msg).

Inductive Outcome (A : Type) :=
| Returned (a : A)
| Threw (e : Thrown).
Arguments Returned {A} a.
Arguments Threw {A} e.

Abbreviation Buffer := (list N).

(** A loaded archive: [files] lists [Object.keys(zip.files)]. *)
Record Zip := { files : list jsstring }.

(** The client cached in [cohereClient], built from [{ token }]. *)
Record Client := { token : option jsstring }.

(** The calls [processJob] makes to its collaborators. *)
Inductive Call :=
| ReadFileSync (path : jsstring)
| PdfParse (buffer : Buffer)
| LoadAsync (buffer : Buffer)
| EntryText (zip : Zip) (name : jsstring)
| ExtractRawText (buffer : Buffer)
| Recognize (path lang : jsstring)
| EnvCohereApiKey
| NewCohereClient (token : option jsstring)
| Chat (cohere : Client) (model message : jsstring) (maxTokens : N).

(** What each call evaluates to: for the extraction backends the [text]
    (or [value]) property of their result, [None] when it is missing. *)
Definition Resp (c : Call) : Type :=
  match c with
  | ReadFileSync _ => Buffer
  | PdfParse _ => option jsstring
  | LoadAsync _ => Zip
  | EntryText _ _ => jsstring
  | ExtractRawText _ => option jsstring
  | Recognize _ _ => option jsstring
  | EnvCohereApiKey => option jsstring
  | NewCohereClient _ => Client
  | Chat _ _ _ _ => jsstring
  end.

(** The calls that return a promise, which [processJob] awaits. *)
Definition is_async (c : Call) : bool :=
  match c with
  | ReadFileSync _ | EnvCohereApiKey | NewCohereClient _ => false
  | _ => true
  end.

(** The calls of the generation stage. *)
Definition is_generation_call (c : Call) : bool :=
  match c with
  | EnvCohereApiKey | NewCohereClient _ | Chat _ _ _ _ => true
  | _ => false
  end.

(** The body of an async function: it returns, throws, makes a call and
    goes on with its value, or reads or writes the module variable
    [cohereClient]. *)
Inductive Prog (A : Type) : Type :=
| Ret (a : A)
| Throw (e : Thrown)
| Do (c : Call) (k : Resp c -> Prog A)
| GetClient (k : option Client -> Prog A)
| SetClient (cl : Client) (k : Prog A).
Arguments Ret {A} a.
Arguments Throw {A} e.
Arguments Do {A} c k.
Arguments GetClient {A} k.
Arguments SetClient {A} cl k.

Fixpoint bind {A B} (p : Prog A) (f : A -> Prog B) : Prog B :=
  match p with
  | Ret a => f a
  | Throw e => Throw e
  | Do c k => Do c (fun x => bind (k x) f)
  | GetClient k => GetClient (fun c => bind (k c) f)
  | SetClient cl k => SetClient cl (bind k f)
  end.

#[global] Instance Prog_ret : MRet Prog := @Ret.
#[global] Instance Prog_bind : MBind Prog := fun A B f p => bind p f.

(** A call whose value is used as it comes; [await] reads better at the
    calls that return a promise. *)
Abbreviation call c := (Do c Ret).
Abbreviation await c := (Do c Ret).

(** The process around the worker at one instant: the clock, the working
    directory, Node's [path.join] and [path.extname], and what each call
    evaluates to. *)
Record Host := {
  now : jsstring;
  cwd : jsstring;
  path_join : jsstring -> jsstring -> jsstring;
  path_extname : jsstring -> jsstring;
  answer : forall c : Call, Outcome (Resp c)
}.

(** * The worker *)

Definition initCohere : Prog Client :=
  GetClient (fun cohereClient =>
    match cohereClient with
    | Some cl => Ret cl
    | None =>
        Do EnvCohereApiKey (fun key =>
          match key with
          | Some (_ :: _) =>
              Do EnvCohereApiKey (fun token =>
                Do (NewCohereClient token) (fun cl => SetClient cl (Ret cl)))
          | _ => Throw (new_Error (js "COHERE_API_KEY is not set in environment"))
          end)
    end).

(** [slideXml.replace(/<[^>]+>/g, ' ').replace(/\s+/g, ' ').trim()]. *)
Definition clean_slide (slideXml : jsstring) : jsstring :=
  trim (replace_spaces (replace_tags slideXml)).

(** The template literal of the slide loop, for the index [i] of the loop. *)
Definition slide_block (i : N) (cleaned : jsstring) : jsstring :=
  js "Slide " ++ toString (i + 1) ++ js ": " ++ cleaned ++ [10; 10].

Definition is_slide_name (name : jsstring) : bool :=
  startsWith name (js "ppt/slides/slide") && endsWith name (js ".xml").

Definition slideFiles (zip : Zip) : list jsstring :=
  sort (filter (fun name => is_slide_name name = true) (files zip)).

(** The loop over [slideFiles], from index [i] on, with [text] so far. *)
Fixpoint slides_loop (zip : Zip) (names : list jsstring) (i : N)
    (text : jsstring) : Prog jsstring :=
  match names with
  | [] => Ret text
  | name :: rest =>
      Do (EntryText zip name) (fun slideXml =>
        let cleaned := clean_slide slideXml in
        slides_loop zip rest (i + 1)
          match cleaned with
          | [] => text
          | _ => text ++ slide_block i cleaned
          end)
  end.


Definition fallback_text (extname : jsstring) : jsstring :=
  jsq "
This document is of type `" ++ extname ++ jsq "`.
It likely contains educational or structured content.

Generate a clear academic-style summary and key concepts based on this context.
".

(** The branch taken for a lower-cased path. *)
Inductive Format := PDF | PPTX | DOCX | IMAGE | FALLBACK.

Definition dispatch (ext : jsstring) : Format :=
  if endsWith ext (js ".pdf") then PDF
  else if endsWith ext (js ".pptx") then PPTX
  else if endsWith ext (js ".docx") then DOCX
  else if endsWith ext (js ".png") || endsWith ext (js ".jpg")
          || endsWith ext (js ".jpeg") then IMAGE
  else FALLBACK.

(** [savedLocation.startsWith('/') ? savedLocation.slice(1) : savedLocation] *)
Definition relativePath (savedLocation : jsstring) : jsstring :=
  if startsWith savedLocation (js "/")
  then slice savedLocation 1 (Z.of_nat (length savedLocation))
  else savedLocation.

Definition fullPath (h : Host) (job : Job) : jsstring :=
  path_join h (cwd h) (relativePath (savedLocation job)).

(** The extraction stage: the value of [extractedText] at the guard. *)
Definition extract (h : Host) (job : Job) : Prog jsstring :=
  let fullPath := fullPath h job in
  match dispatch (toLowerCase fullPath) with
  | PDF =>
      buffer ← call (ReadFileSync fullPath);
      text ← await (PdfParse buffer);
      Ret (default [] text)
  | PPTX =>
      buffer ← call (ReadFileSync fullPath);
      zip ← await (LoadAsync buffer);
      slides_loop zip (slideFiles zip) 0 []
  | DOCX =>
      buffer ← call (ReadFileSync fullPath);
      value ← await (ExtractRawText buffer);
      Ret (default [] value)
  | IMAGE =>
      text ← await (Recognize fullPath (js "eng"));
      Ret (default [] text)
  | FALLBACK => Ret (fallback_text (path_extname h fullPath))
  end.

(** [!extractedText || extractedText.trim().length < 20] *)
Definition too_short (extractedText : jsstring) : bool :=
  match extractedText with
  | [] => true
  | _ => Nat.ltb (length (trim extractedText)) 20
  end.

Definition not_enough_text : jsstring :=
  js "Not enough readable text found in this file to generate a meaningful summary.".

(** The two prompts; [8211] is the en dash of the source text. *)
Definition summary_prompt (extractedText : jsstring) : jsstring :=
  jsq "
You are an academic summarizer.

STRICT RULES:
- Do NOT say anything like `content not provided`, `template`, or `replace with...`
- Do NOT explain what you are doing.
- Do NOT add introductions about missing data.
- Start directly with the summary content.
- Maintain a clean academic tone.

Task:
Generate a **detailed, well-structured academic summary** of the content below for:
- Exam preparation
- Conceptual clarity
- Revision notes

Style Requirements:
- Use clear headings and subheadings
- Explain each concept in 2"
  ++ [8211] ++
  jsq "4 lines
- Preserve definitions, procedures, and examples
- Use bullet points where appropriate
- Do NOT over-compress
- End the summary cleanly (no abrupt cutoff)

Content:
"
  ++ extractedText ++ jsq "
".

Definition conceptPrompt (extractedText : jsstring) : jsstring :=
  jsq "
Return a concept map derived from the content below.

You MUST respond with a valid JSON object only.
Do not include any explanation, heading, or commentary.

Schema:
{
  `nodes`: [
    { `id`: `A`, `label`: `Main Topic` }
  ],
  `edges`: [
    { `from`: `A`, `to`: `B`, `label`: `relates to` }
  ]
}

Rules:
- Response must start with '{' and end with '}'
- No markdown
- No extra text
- No comments

Content:
"
  ++ extractedText ++ jsq "
".

Definition chat_model : jsstring := js "command-a-03-2025".

(** The inner [try] of the concept-map step; [None] is the [null] that
    [conceptMap] keeps when the block throws. *)
Definition parseConceptMap (text : jsstring) : option Json.value :=
  let raw := trim text in
  let start := indexOf raw 123 in
  let end_ := lastIndexOf raw 125 in
  if (start =? -1)%Z || (end_ =? -1)%Z then None
  else
    let jsonString := slice raw start (end_ + 1) in
    Json.parse jsonString.

(** The generation stage: everything after the guard. *)
Definition generate (extractedText : jsstring) : Prog Result :=
  cohere ← initCohere;
  summaryRes ← await (Chat cohere chat_model (summary_prompt extractedText) 1400);
  conceptRes ← await (Chat cohere chat_model (conceptPrompt extractedText) 1400);
  Ret {| summary := summaryRes; conceptMap := parseConceptMap conceptRes |}.

(** The [try] block of [processJob]. *)
Definition processJob_try (h : Host) (job : Job) : Prog Result :=
  extractedText ← extract h job;
  if too_short extractedText then Throw (new_Error not_enough_text)
  else generate extractedText.

(** [err.message || 'Processing failed'], for an [err] on which the
    property can be read: a missing or empty message gives the fallback. *)
Definition error_message (err : Thrown) : jsstring :=
  match thrown_message err with
  | Some (c :: m) => c :: m
  | _ => js "Processing failed"
  end.

(** * The event loop *)

(** An async function suspended at an [await]: the job it works on, the
    call it waits for and what it does with the value. *)
Record Task := {
  task_job : Job;
  task_call : Call;
  task_resume : Resp task_call -> Prog Result
}.

(** Marks left in [history], which no operation reads: the claim of a
    job, its terminal write, and the end of a [processJob] whose [catch]
    block threw, so that no terminal write was made and the promise of
    [processJob], which nothing awaits, is rejected. *)
Inductive Mark :=
| Claimed (job : Job)
| Finished (job : Job) (st : Status)
| Escaped (job : Job).

(** The module variables [statuses], [jobs], [workerRunning] and
    [cohereClient]; the suspended [processJob], if any; the number of
    [setTimeout(processNext, 100)] callbacks not yet run; and the history
    of claims and ends of jobs so far, oldest first.

    [statuses] holds the records the module has assigned, by id: what
    [statuses[id] = ...] stores and what [statuses[id] || {}] spreads in a
    later write.  The source object is a plain literal, so a read of a
    key the module never assigned also sees the members of
    [Object.prototype] ([constructor], [toString], ...), and an assignment
    under the id [__proto__] replaces the prototype instead of storing a
    property; what a reader of the exported object finds under such keys
    is not part of this state. *)
Record State := {
  statuses : gmap jsstring StatusRecord;
  jobs : list Job;
  workerRunning : bool;
  cohereClient : option Client;
  awaiting : option Task;
  timers : nat;
  history : list Mark
}.

Definition initial : State :=
  {| statuses := ∅; jobs := []; workerRunning := false; cohereClient := None;
     awaiting := None; timers := 0; history := [] |}.

(** The [finally] block: release the worker and, when jobs are pending,
    schedule [processNext].  [statuses'] is the registry as the [try] or
    the [catch] block left it and [mark] says how the job ended. *)
Definition finally (mark : Mark)
    (statuses' : gmap jsstring StatusRecord) (s : State) : State :=
  {| statuses := statuses';
     jobs := jobs s;
     workerRunning := false;
     cohereClient := cohereClient s;
     awaiting := None;
     timers := match jobs s with [] => timers s | _ :: _ => S (timers s) end;
     history := history s ++ [mark] |}.

(** The end of the [try] block, then [finally]. *)
Definition on_return (h : Host) (job : Job) (r : Result) (s : State) : State :=
  finally (Finished job Done)
    (upsert (id job)
       {| status := Some Done; startedAt := None; finishedAt := Some (now h);
          result := Some r; message := None |}
       (statuses s)) s.

(** The [catch] block, then [finally].  The new record is built before it
    is assigned, and building it reads [err.message]: for a [null] or
    [undefined] [err] that read throws a [TypeError], nothing is assigned
    to [statuses[id]], [finally] runs all the same, and the [TypeError]
    rejects the promise of [processJob]. *)
Definition on_throw (job : Job) (err : Thrown) (s : State) : State :=
  match err with
  | Value _ =>
      finally (Finished job Error)
        (upsert (id job)
           {| status := Some Error; startedAt := None; finishedAt := None;
              result := None; message := Some (error_message err) |}
           (statuses s)) s
  | Nullish => finally (Escaped job) (statuses s) s
  end.

Definition with_client (cl : option Client) (s : State) : State :=
  {| statuses := statuses s; jobs := jobs s; workerRunning := workerRunning s;
     cohereClient := cl; awaiting := awaiting s; timers := timers s;
     history := history s |}.

Definition suspend (t : Task) (s : State) : State :=
  {| statuses := statuses s; jobs := jobs s; workerRunning := workerRunning s;
     cohereClient := cohereClient s; awaiting := Some t; timers := timers s;
     history := history s |}.

(** [processJob] runs [p] for [job] until the next [await] or to its end. *)
Fixpoint advance (h : Host) (job : Job) (p : Prog Result) (s : State) : State :=
  match p with
  | Ret r => on_return h job r s
  | Throw err => on_throw job err s
  | Do c k =>
      if is_async c then
        suspend {| task_job := job; task_call := c; task_resume := k |} s
      else
        match answer h c with
        | Returned x => advance h job (k x) s
        | Threw err => on_throw job err s
        end
  | GetClient k => advance h job (k (cohereClient s)) s
  | SetClient cl k => advance h job k (with_client (Some cl) s)
  end.

Definition processJob (h : Host) (job : Job) (s : State) : State :=
  advance h job (processJob_try h job) s.

(** The worker takes [job], the head of the queue whose tail is [rest]:
    the flag is set and the record of the job is merged with status
    [Processing] and the time of the claim. *)
Definition claim (h : Host) (job : Job) (rest : list Job) (s : State) : State :=
  {| statuses :=
       upsert (id job)
         {| status := Some Processing; startedAt := Some (now h);
            finishedAt := None; result := None; message := None |}
         (statuses s);
     jobs := rest;
     workerRunning := true;
     cohereClient := cohereClient s;
     awaiting := awaiting s;
     timers := timers s;
     history := history s ++ [Claimed job] |}.

Definition processNext (h : Host) (s : State) : State :=
  if workerRunning s then s
  else
    match jobs s with
    | [] => s
    | job :: rest => processJob h job (claim h job rest s)
    end.

Definition enqueue (h : Host) (job : Job) (s : State) : State :=
  processNext h
    {| statuses := statuses s; jobs := jobs s ++ [job];
       workerRunning := workerRunning s; cohereClient := cohereClient s;
       awaiting := awaiting s; timers := timers s; history := history s |}.

(** The awaited promise settles and the suspended [processJob] goes on. *)
Definition settle (h : Host) (s : State) : State :=
  match awaiting s with
  | None => s
  | Some t =>
      match answer h (task_call t) with
      | Returned x => advance h (task_job t) (task_resume t x) s
      | Threw err => on_throw (task_job t) err s
      end
  end.

(** A timer set by [finally] runs its callback. *)
Definition timer (h : Host) (s : State) : State :=
  match timers s with
  | O => s
  | S n =>
      processNext h
        {| statuses := statuses s; jobs := jobs s;
           workerRunning := workerRunning s; cohereClient := cohereClient s;
           awaiting := awaiting s; timers := n; history := history s |}
  end.

(** What the event loop can run next. *)
Inductive Event :=
| Enqueue (job : Job)
| TimerFires
| PromiseSettles.

Definition step (h : Host) (ev : Event) (s : State) : State :=
  match ev with
  | Enqueue job => enqueue h job s
  | TimerFires => timer h s
  | PromiseSettles => settle h s
  end.

(** A run of the event loop: each event with the host as it is then. *)
Definition exec (evs : list (Host * Event)) (s : State) : State :=
  fold_left (fun s he => step (fst he) (snd he) s) evs s.

(** The jobs handed to [enqueue] during a run, in order. *)
Definition submitted (evs : list (Host * Event)) : list Job :=
  omap (fun he => match snd he with Enqueue job => Some job | _ => None end) evs.

(** ** One job from start to end under a steady host *)

(** [p] with every call answered by [h], starting with [cl] in
    [cohereClient]: how it ends, the cached client afterwards and the
    calls made, in order. *)
Fixpoint run {A} (h : Host) (cl : option Client) (p : Prog A)
    : Outcome A * option Client * list Call :=
  match p with
  | Ret a => (Returned a, cl, [])
  | Throw err => (Threw err, cl, [])
  | Do c k =>
      match answer h c with
      | Returned x => let '(o, cl', cs) := run h cl (k x) in (o, cl', c :: cs)
      | Threw err => (Threw err, cl, [c])
      end
  | GetClient k => run h cl (k cl)
  | SetClient c k => run h (Some c) k
  end.

(** The state in which [processJob] leaves the module once [p] has run to
    its end. *)
Definition complete (h : Host) (job : Job) (p : Prog Result) (s : State) : State :=
  match run h (cohereClient s) p with
  | (Returned r, cl, _) => on_return h job r (with_client cl s)
  | (Threw err, cl, _) => on_throw job err (with_client cl s)
  end.

(** ** Shapes of a history *)

(** [mark] records the end of the [processJob] of [job]. *)
Definition ends (mark : Mark) (job : Job) : Prop :=
  match mark with
  | Finished j _ | Escaped j => j = job
  | Claimed _ => False
  end.

(** A history in which the [processJob] of every claimed job has ended
    before the next claim: [sequential marks claimed open] holds when
    [marks] claims the jobs [claimed], in that order, and [open] is the
    job claimed whose [processJob] has not ended yet. *)
Inductive sequential : list Mark -> list Job -> option Job -> Prop :=
| sequential_nil : sequential [] [] None
| sequential_claim marks claimed job :
    sequential marks claimed None ->
    sequential (marks ++ [Claimed job]) (claimed ++ [job]) (Some job)
| sequential_end marks claimed job mark :
    sequential marks claimed (Some job) ->
    ends mark job ->
    sequential (marks ++ [mark]) claimed None.

(** A job with id [i] ended without a terminal write. *)
Definition escaped (s : State) (i : jsstring) : Prop :=
  ∃ job, Escaped job ∈ history s ∧ id job = i.

Definition in_flight (s : State) : option Job := task_job <$> awaiting s.

Definition is_terminal (st : option Status) : bool :=
  match st with
  | Some Done | Some Error => true
  | _ => false
  end.

(** ** Invariants of the event loop *)

(** Between the claim of [job] and the end of its [processJob], whether
    [processJob] is running or suspended. *)
Definition busy (sub : list Job) (job : Job) (s : State) : Prop :=
  workerRunning s = true ∧
  (∃ claimed, sequential (history s) claimed (Some job)
              ∧ sub = claimed ++ jobs s) ∧
  (∀ i r, statuses s !! i = Some r → status r = Some Processing →
          i = id job ∨ escaped s i) ∧
  (∃ r, statuses s !! id job = Some r ∧ status r = Some Processing).

(** Between two events, after the jobs [sub] have been submitted. *)
Definition settled (sub : list Job) (s : State) : Prop :=
  (workerRunning s = true ↔ is_Some (awaiting s)) ∧
  (∃ claimed, sequential (history s) claimed (in_flight s)
              ∧ sub = claimed ++ jobs s) ∧
  (∀ i r, statuses s !! i = Some r → status r = Some Processing →
          (∃ job, in_flight s = Some job ∧ id job = i) ∨ escaped s i) ∧
  (∀ job, in_flight s = Some job →
          ∃ r, statuses s !! id job = Some r ∧ status r = Some Processing).

(** The states the module goes through when it starts from its initial
    state. *)
Definition reachable (s : State) : Prop := ∃ evs, s = exec evs initial.

(** * Concrete hosts for the examples *)

(** [path.join] and [path.extname] on paths that need no normalisation. *)
Definition demo_join (a b : jsstring) : jsstring := a ++ js "/" ++ b.

Definition demo_extname (p : jsstring) : jsstring :=
  let dot := lastIndexOf p 46 in
  if (dot <? 0)%Z then [] else slice p dot (Z.of_nat (length p)).

(** What the collaborators of a host answer: the disk, the text found in
    a PDF, a document or an image, the entries of an archive with their
    XML, the API key, and the two chat completions. *)
Record World := {
  disk : jsstring -> Outcome Buffer;
  found_text : Outcome (option jsstring);
  deck : list (jsstring * jsstring);
  api_key : option jsstring;
  summary_reply : Outcome jsstring;
  concept_reply : Outcome jsstring
}.

Fixpoint entry_xml (deck : list (jsstring * jsstring)) (name : jsstring) : jsstring :=
  match deck with
  | [] => []
  | (n, xml) :: rest => if decide (n = name) then xml else entry_xml rest name
  end.

Definition demo_answer (w : World) (c : Call) : Outcome (Resp c) :=
  match c as c return Outcome (Resp c) with
  | ReadFileSync path => disk w path
  | PdfParse _ => found_text w
  | LoadAsync _ => Returned {| files := map fst (deck w) |}
  | EntryText _ name => Returned (entry_xml (deck w) name)
  | ExtractRawText _ => found_text w
  | Recognize _ _ => found_text w
  | EnvCohereApiKey => Returned (api_key w)
  | NewCohereClient token => Returned {| token := token |}
  | Chat _ _ message _ =>
      if startsWith message (js "
You are an academic summarizer.")
      then summary_reply w else concept_reply w
  end.

Definition demo_host (time : jsstring) (w : World) : Host :=
  {| now := time; cwd := js "/srv/app"; path_join := demo_join;
     path_extname := demo_extname; answer := demo_answer w |}.

(** Programs that only talk to the extraction backends: no call of the
    generation stage and no access to [cohereClient]. *)
Inductive extraction_only {A} : Prog A -> Prop :=
| extraction_only_ret a : extraction_only (Ret a)
| extraction_only_throw err : extraction_only (Throw err)
| extraction_only_do c k :
    is_generation_call c = false ->
    (forall x, extraction_only (k x)) ->
    extraction_only (Do c k).

(** The suffixes with a dedicated extraction branch. *)
Definition handled_suffixes : list jsstring :=
  [js ".pdf"; js ".pptx"; js ".docx"; js ".png"; js ".jpg"; js ".jpeg"].

(** The graph-call response of the parsing example. *)
Definition example_response : jsstring :=
  jsq "Sure! {`nodes`:[{`id`:`A`,`label`:`X`}],`edges`:[]} Thanks.".

(** ** Shape of the records when job ids are unique *)

(** What a record holds in each status. *)
Definition record_shape (r : StatusRecord) : Prop :=
  is_Some (startedAt r) ∧
  match status r with
  | Some Processing => result r = None ∧ message r = None
  | Some Done => is_Some (result r) ∧ message r = None
  | Some Error => result r = None ∧ is_Some (message r)
  | None => False
  end.

(** Every record has the shape of its status and belongs to a claimed
    job. *)
Definition tidy (sub : list Job) (s : State) : Prop :=
  ∃ claimed, sub = claimed ++ jobs s ∧
    ∀ i r, statuses s !! i = Some r → record_shape r ∧ i ∈ map id claimed.

(** ** Worlds and jobs of the examples *)

(** Every collaborator answers; the graph call answers
    [example_response]. *)
Definition fair_world : World :=
  {| disk := fun _ => Returned [];
     found_text := Returned (Some (js "Graphs, trees and how to traverse them."));
     deck := [];
     api_key := Some (js "secret");
     summary_reply := Returned (js "A summary.");
     concept_reply := Returned example_response |}.

(** The file is missing: [fs.readFileSync] throws. *)
Definition no_file_world : World :=
  {| disk := fun _ => Threw (new_Error (js "ENOENT: no such file or directory"));
     found_text := found_text fair_world;
     deck := [];
     api_key := api_key fair_world;
     summary_reply := summary_reply fair_world;
     concept_reply := concept_reply fair_world |}.

(** The PDF holds almost no text. *)
Definition blank_pdf_world : World :=
  {| disk := disk fair_world;
     found_text := Returned (Some (js "  page 1  "));
     deck := [];
     api_key := api_key fair_world;
     summary_reply := summary_reply fair_world;
     concept_reply := concept_reply fair_world |}.

(** The graph call answers with prose only. *)
Definition prose_world : World :=
  {| disk := disk fair_world;
     found_text := found_text fair_world;
     deck := [];
     api_key := api_key fair_world;
     summary_reply := summary_reply fair_world;
     concept_reply := Returned (js "I could not build a concept map.") |}.

(** A presentation of ten slides; slide [n] holds the text [n]. *)
Definition slide_entry (n : N) : jsstring * jsstring :=
  (js "ppt/slides/slide" ++ toString n ++ js ".xml",
   js "<p:sld><a:t>" ++ toString n ++ js "</a:t></p:sld>").

Definition ten_slides_world : World :=
  {| disk := disk fair_world;
     found_text := found_text fair_world;
     deck := (js "[Content_Types].xml", js "<Types/>")
             :: (js "ppt/slides/_rels/slide1.xml.rels", js "<Relationships/>")
             :: map slide_entry [1; 2; 3; 4; 5; 6; 7; 8; 9; 10];
     api_key := api_key fair_world;
     summary_reply := summary_reply fair_world;
     concept_reply := concept_reply fair_world |}.

Definition report_job : Job :=
  {| id := js "job-1"; savedLocation := js "/uploads/report.pdf" |}.

Definition notes_job : Job :=
  {| id := js "job-2"; savedLocation := js "uploads/notes.txt" |}.

Definition slides_job : Job :=
  {| id := js "job-3"; savedLocation := js "/uploads/lecture.PPTX" |}.

(** A second submission under the id of [report_job]. *)
Definition resubmitted_job : Job :=
  {| id := js "job-1"; savedLocation := js "/uploads/report-v2.pdf" |}.

(** [report_job] from its submission to its terminal write in
    [fair_world]: the claim, then the three awaited calls settle. *)
Definition report_done : list (Host * Event) :=
  [(demo_host (js "2024-05-01T10:00:00.000Z") fair_world, Enqueue report_job);
   (demo_host (js "2024-05-01T10:00:01.000Z") fair_world, PromiseSettles);
   (demo_host (js "2024-05-01T10:00:02.000Z") fair_world, PromiseSettles);
   (demo_host (js "2024-05-01T10:00:03.000Z") fair_world, PromiseSettles)].

(** [report_job] submitted when its file is missing. *)
Definition report_failed : list (Host * Event) :=
  [(demo_host (js "2024-05-01T10:00:00.000Z") no_file_world, Enqueue report_job)].

Definition resubmission : Host * Event :=
  (demo_host (js "2024-05-01T11:00:00.000Z") fair_world, Enqueue resubmitted_job).

(** [report_job] just claimed, suspended at its first await. *)
Definition report_claimed : list (Host * Event) :=
  [(demo_host (js "2024-05-01T10:00:00.000Z") fair_world, Enqueue report_job)].

(** Two jobs with distinct ids, the first one run to its end. *)
Definition two_jobs : list (Host * Event) :=
  report_done
  ++ [(demo_host (js "2024-05-01T10:05:00.000Z") fair_world, Enqueue notes_job)].

From Stdlib Require Sorted.

(** * Further notions used by the properties of the whole module *)

(** A pending job is never left without a wake-up: when the worker is
    free and jobs are queued, a [setTimeout(processNext, 100)] callback is
    still to run. *)
Definition never_stranded (s : State) : Prop :=
  workerRunning s = false → jobs s ≠ [] → (0 < timers s)%nat.

(** Events in which nobody calls [enqueue]: timers and settled promises,
    all under the host [h]. *)
Definition quiet (h : Host) (evs : list (Host * Event)) : Prop :=
  Forall (λ he, he = (h, TimerFires) ∨ he = (h, PromiseSettles)) evs.

(** The file is there but the PDF backend rejects it. *)
Definition broken_pdf_world : World :=
  {| disk := disk fair_world;
     found_text := Threw (new_Error (js "Invalid PDF structure"));
     deck := [];
     api_key := api_key fair_world;
     summary_reply := summary_reply fair_world;
     concept_reply := concept_reply fair_world |}.

(** [report_job] is claimed, two more jobs are queued behind it, then its
    PDF is rejected. *)
Definition backlog : list (Host * Event) :=
  [(demo_host (js "2024-05-01T10:00:00.000Z") broken_pdf_world, Enqueue report_job);
   (demo_host (js "2024-05-01T10:00:01.000Z") broken_pdf_world, Enqueue slides_job);
   (demo_host (js "2024-05-01T10:00:02.000Z") broken_pdf_world, Enqueue notes_job);
   (demo_host (js "2024-05-01T10:00:03.000Z") broken_pdf_world, PromiseSettles)].

(** The two calls by which [initCohere] builds the client. *)
Definition is_init_call (c : Call) : bool :=
  match c with
  | EnvCohereApiKey | NewCohereClient _ => true
  | _ => false
  end.

(** How a program may touch [cohereClient].  [disciplined false p]: [p]
    builds no client on its own; it writes the variable only after it has
    read it and found it empty.  [disciplined true p]: [p] has just read
    the empty variable and may fill it, without awaiting anything before
    it does. *)
Inductive disciplined {A} : bool -> Prog A -> Prop :=
| disciplined_ret a : disciplined false (Ret a)
| disciplined_throw err : disciplined false (Throw err)
| disciplined_do c k :
    is_init_call c = false ->
    (forall x, disciplined false (k x)) ->
    disciplined false (Do c k)
| disciplined_get k :
    (forall cl, disciplined false (k (Some cl))) ->
    disciplined true (k None) ->
    disciplined false (GetClient k)
| disciplined_filling p :
    disciplined false p -> disciplined true p
| disciplined_sync c k :
    is_async c = false ->
    (forall x, disciplined true (k x)) ->
    disciplined true (Do c k)
| disciplined_set cl k :
    disciplined false k -> disciplined true (SetClient cl k).

(** No API key in the environment. *)
Definition keyless_world : World :=
  {| disk := disk fair_world;
     found_text := found_text fair_world;
     deck := [];
     api_key := None;
     summary_reply := summary_reply fair_world;
     concept_reply := concept_reply fair_world |}.


(** The outermost container still open is an object. *)
Fixpoint bottom_is_object (stack : list Json.frame) : bool :=
  match stack with
  | [] => false
  | [Json.FObject _ _] => true
  | [Json.FArray _] => false
  | _ :: rest => bottom_is_object rest
  end.

(** A parser state that can only end in an object. *)
Definition rooted (ps : Json.pstate) : Prop :=
  match ps with
  | ([], Json.EDone (Json.JObject _)) => True
  | ([], _) => False
  | (stack, _) => bottom_is_object stack = true
  end.

(** The properties a record holds in each status, [finishedAt] included. *)
Definition full_shape (r : StatusRecord) : Prop :=
  is_Some (startedAt r) ∧
  match status r with
  | Some Processing =>
      finishedAt r = None ∧ result r = None ∧ message r = None
  | Some Done =>
      is_Some (finishedAt r) ∧ is_Some (result r) ∧ message r = None
  | Some Error =>
      finishedAt r = None ∧ result r = None ∧ is_Some (message r)
  | None => False
  end.

Definition neat (sub : list Job) (s : State) : Prop :=
  ∃ claimed, sub = claimed ++ jobs s ∧
    ∀ i r, statuses s !! i = Some r → full_shape r ∧ i ∈ map id claimed.


(** A presentation whose second slide cannot be read. *)
Definition torn_answer (c : Call) : Outcome (Resp c) :=
  match c as c return Outcome (Resp c) with
  | EntryText _ name =>
      if decide (name = js "ppt/slides/slide2.xml")
      then Threw (new_Error (js "Corrupted zip: missing 12 bytes"))
      else demo_answer ten_slides_world (EntryText {| files := [] |} name)
  | c => demo_answer ten_slides_world c
  end.

Definition torn_host : Host :=
  {| now := js "2024-05-01T10:00:00.000Z"; cwd := js "/srv/app";
     path_join := demo_join; path_extname := demo_extname;
     answer := torn_answer |}.

(** The branch behind each handled suffix. *)
Definition branch_of_suffix : list (jsstring * Format) :=
  [(js ".pdf", PDF); (js ".pptx", PPTX); (js ".docx", DOCX);
   (js ".png", IMAGE); (js ".jpg", IMAGE); (js ".jpeg", IMAGE)].

(** White space comes as single plain spaces; [after_space] tells that
    the unit before [s] is a space. *)
Fixpoint single_spaced (after_space : bool) (s : jsstring) : bool :=
  match s with
  | [] => true
  | c :: r =>
      if is_space c
      then (c =? 32) && negb after_space && single_spaced true r
      else single_spaced false r
  end.

(** The PDF backend rejects its promise without a reason, as
    [Promise.reject()] does: the rejection reason is [undefined]. *)
Definition bare_rejection_world : World :=
  {| disk := disk fair_world;
     found_text := Threw Nullish;
     deck := [];
     api_key := api_key fair_world;
     summary_reply := summary_reply fair_world;
     concept_reply := concept_reply fair_world |}.

(** [report_job] is claimed and waits for the PDF backend; [notes_job] is
    queued behind it. *)
Definition report_awaited : list (Host * Event) :=
  [(demo_host (js "2024-05-01T10:00:00.000Z") bare_rejection_world, Enqueue report_job);
   (demo_host (js "2024-05-01T10:00:01.000Z") bare_rejection_world, Enqueue notes_job)].

(** After [report_awaited], the promise [report_job] awaits is rejected
    with [undefined]. *)
Definition report_dropped : list (Host * Event) :=
  report_awaited
  ++ [(demo_host (js "2024-05-01T10:00:02.000Z") bare_rejection_world, PromiseSettles)].

(** After [report_dropped], the timer set by [finally] fires. *)
Definition notes_claimed : list (Host * Event) :=
  report_dropped
  ++ [(demo_host (js "2024-05-01T10:00:03.000Z") fair_world, TimerFires)].

(** After [notes_claimed], the two chat calls of [notes_job] settle. *)
Definition notes_done : list (Host * Event) :=
  notes_claimed
  ++ [(demo_host (js "2024-05-01T10:00:04.000Z") fair_world, PromiseSettles);
      (demo_host (js "2024-05-01T10:00:05.000Z") fair_world, PromiseSettles)].

(** The record the claim of [report_job] writes in [report_dropped]. *)
Definition report_processing : StatusRecord :=
  {| status := Some Processing;
     startedAt := Some (js "2024-05-01T10:00:00.000Z");
     finishedAt := None; result := None; message := None |}.

(** * Properties *)

(** ** The string layer and [JSON.parse] at a few inputs *)

Example trim_example : trim (js "  two words
 ") = js "two words".
Proof. reflexivity. Qed.

Example clean_slide_example :
  clean_slide (js "<p:sp><a:t>Graph   theory</a:t>
  <a:t>basics</a:t></p:sp>") = js "Graph theory basics".
Proof. reflexivity. Qed.

Example clean_slide_empty : clean_slide (js "<p:sld><p:cSld/></p:sld>") = [].
Proof. reflexivity. Qed.

Example replace_tags_needs_a_name : replace_tags (js "a<>b<c") = js "a<>b<c".
Proof. reflexivity. Qed.

Example slide_block_example :
  slide_block 0 (js "Intro") = js "Slide 1: Intro" ++ [10; 10].
Proof. reflexivity. Qed.

Example sort_is_textual :
  sort [js "slide2.xml"; js "slide10.xml"; js "slide1.xml"]
  = [js "slide1.xml"; js "slide10.xml"; js "slide2.xml"].
Proof. reflexivity. Qed.

Example dispatch_ignores_case :
  dispatch (toLowerCase (js "/srv/app/uploads/Scan.JPEG")) = IMAGE.
Proof. reflexivity. Qed.

Example parse_escapes :
  Json.parse (jsq "[`a\n\u0041\u4e2D`, -1.5e3, true, null, {}]")
  = Some (Json.JArray [Json.JString [97; 10; 65; 20013];
                       Json.JNumber (js "-1.5e3");
                       Json.JBool true; Json.JNull; Json.JObject []]).
Proof. reflexivity. Qed.

Example parse_rejects :
  map Json.parse
    [js "{"; js "{}}"; js "[1,]"; js "01"; jsq "{`a` 1}"; jsq "{`a`:1,}"; js ""]
  = [None; None; None; None; None; None; None].
Proof. reflexivity. Qed.
(** ** The registry *)

Lemma upsert_lookup_eq (i : jsstring) (fields : StatusRecord)
    (m : gmap jsstring StatusRecord) :
  upsert i fields m !! i = Some (spread (default empty_record (m !! i)) fields).
Proof. unfold upsert. apply lookup_insert_eq. Qed.

Lemma upsert_lookup_ne (i j : jsstring) (fields : StatusRecord)
    (m : gmap jsstring StatusRecord) :
  i ≠ j → upsert i fields m !! j = m !! j.
Proof. intros. unfold upsert. by apply lookup_insert_ne. Qed.

(** ** Runs of the event loop *)

Lemma exec_snoc evs h ev s :
  exec (evs ++ [(h, ev)]) s = step h ev (exec evs s).
Proof. unfold exec. by rewrite fold_left_app. Qed.

Lemma submitted_snoc evs h ev :
  submitted (evs ++ [(h, ev)]) =
  submitted evs ++ match ev with Enqueue job => [job] | _ => [] end.
Proof.
  unfold submitted. rewrite omap_app. f_equal. simpl. by destruct ev.
Qed.

Lemma escaped_finally mark m s i :
  escaped s i → escaped (finally mark m s) i.
Proof.
  intros (job & Hin & Hi). exists job. split; [|done].
  simpl. apply elem_of_app. by left.
Qed.

(** The terminal write of the job in flight re-establishes the invariant
    of the idle module. *)
Lemma finally_settled sub job st (fields : StatusRecord) s :
  busy sub job s →
  status fields = Some st → st ≠ Processing →
  settled sub
    (finally (Finished job st) (upsert (id job) fields (statuses s)) s).
Proof.
  intros (Hw & (claimed & Hseq & Hsub) & Hproc & _) Hst Hne.
  split; [|split; [|split]].
  - simpl. split; [done|]. intros [? ?]; done.
  - exists claimed. split; [|done]. simpl. unfold in_flight. simpl.
    by apply sequential_end with job.
  - intros i r Hi Hr. right. apply escaped_finally. simpl in Hi.
    destruct (decide (id job = i)) as [<-|Hij].
    + exfalso. rewrite upsert_lookup_eq in Hi. injection Hi as <-.
      simpl in Hr. rewrite Hst in Hr. simpl in Hr. congruence.
    + rewrite upsert_lookup_ne in Hi by done.
      destruct (Hproc i r Hi Hr) as [->|He]; done.
  - intros job' Hj. unfold in_flight in Hj. simpl in Hj. done.
Qed.

(** So does the end of a job whose [catch] block threw: its record keeps
    the status [Processing], and the job is marked as escaped. *)
Lemma escape_settled sub job s :
  busy sub job s → settled sub (finally (Escaped job) (statuses s) s).
Proof.
  intros (Hw & (claimed & Hseq & Hsub) & Hproc & _).
  split; [|split; [|split]].
  - simpl. split; [done|]. intros [? ?]; done.
  - exists claimed. split; [|done]. simpl. unfold in_flight. simpl.
    by apply sequential_end with job.
  - intros i r Hi Hr. right. simpl in Hi.
    destruct (Hproc i r Hi Hr) as [->|He]; [|by apply escaped_finally].
    exists job. split; [|done]. simpl. apply elem_of_app. right.
    by apply list_elem_of_singleton.
  - intros job' Hj. unfold in_flight in Hj. simpl in Hj. done.
Qed.

Lemma on_return_settled sub h job r s :
  busy sub job s → settled sub (on_return h job r s).
Proof. intros Hb. by eapply finally_settled. Qed.

Lemma on_throw_settled sub job err s :
  busy sub job s → settled sub (on_throw job err s).
Proof.
  intros Hb. destruct err as [|msg]; simpl.
  - by apply escape_settled.
  - by eapply finally_settled.
Qed.

Lemma advance_settled sub h job p s :
  busy sub job s → settled sub (advance h job p s).
Proof.
  revert s. induction p as [r|err|c k IH|k IH|cl k IH]; intros s Hb; simpl.
  - by apply on_return_settled.
  - by apply on_throw_settled.
  - destruct (is_async c).
    + destruct Hb as (Hw & (claimed & Hseq & Hsub) & Hproc & Hrec).
      split; [|split; [|split]]; simpl.
      * split; [eauto|done].
      * exists claimed. done.
      * intros i r Hi Hr. destruct (Hproc i r Hi Hr) as [->|He].
        -- left. by exists job.
        -- by right.
      * intros job' Hj. unfold in_flight in Hj. simpl in Hj. by injection Hj as <-.
    + destruct (answer h c); [by apply IH|by apply on_throw_settled].
  - by apply IH.
  - by apply IH.
Qed.

Lemma settled_busy sub s t :
  settled sub s → awaiting s = Some t → busy sub (task_job t) s.
Proof.
  intros (Hw & (claimed & Hseq & Hsub) & Hproc & Hrec) Ht.
  unfold in_flight in *. rewrite Ht in *. simpl in *.
  split; [|split; [|split]].
  - apply Hw. eauto.
  - eauto.
  - intros i r Hi Hr. destruct (Hproc i r Hi Hr) as [(job & Hj & <-)|He].
    + left. congruence.
    + by right.
  - by apply Hrec.
Qed.

Lemma settled_idle sub s :
  settled sub s → workerRunning s = false → awaiting s = None.
Proof.
  intros (Hwa & _) Hw. destruct (awaiting s) eqn:Ha; [|done].
  assert (workerRunning s = true) by (apply Hwa; eauto). congruence.
Qed.

Lemma claim_busy sub h job rest s :
  settled sub s → workerRunning s = false → jobs s = job :: rest →
  busy sub job (claim h job rest s).
Proof.
  intros Hs Hw Hj.
  pose proof (settled_idle _ _ Hs Hw) as Hnone.
  destruct Hs as (Hwa & (claimed & Hseq & Hsub) & Hproc & Hrec).
  unfold in_flight in *. rewrite Hnone in *. simpl in *.
  split; [done|split; [|split]]; simpl.
  - exists (claimed ++ [job]). split; [by apply sequential_claim|].
    rewrite Hsub, Hj. by rewrite <- app_assoc.
  - intros i r Hi Hr.
    destruct (decide (id job = i)) as [<-|Hij]; [by left|].
    rewrite upsert_lookup_ne in Hi by done.
    destruct (Hproc i r Hi Hr) as [(? & ? & _)|(j & Hin & Hji)]; [done|].
    right. exists j. split; [|done]. apply elem_of_app. by left.
  - rewrite upsert_lookup_eq. eauto.
Qed.

Lemma processNext_settled sub h s :
  settled sub s → settled sub (processNext h s).
Proof.
  intros Hs. unfold processNext.
  destruct (workerRunning s) eqn:Hw; [done|].
  destruct (jobs s) as [|job rest] eqn:Hj; [done|].
  apply advance_settled. by apply claim_busy.
Qed.

Lemma step_settled sub h ev s :
  settled sub s →
  settled (sub ++ match ev with Enqueue job => [job] | _ => [] end) (step h ev s).
Proof.
  intros Hs. destruct ev as [job| |]; simpl.
  - unfold enqueue. apply processNext_settled.
    destruct Hs as (Hwa & (claimed & Hseq & Hsub) & Hproc).
    split; [done|split; [|done]].
    exists claimed. split; [done|]. simpl. rewrite Hsub. by rewrite <- app_assoc.
  - rewrite app_nil_r. unfold timer. destruct (timers s); [done|].
    by apply processNext_settled.
  - rewrite app_nil_r. unfold settle.
    destruct (awaiting s) as [t|] eqn:Ht; [|done].
    pose proof (settled_busy _ _ _ Hs Ht) as Hb.
    destruct (answer h (task_call t)).
    + by apply advance_settled.
    + by apply on_throw_settled.
Qed.

Lemma exec_settled evs : settled (submitted evs) (exec evs initial).
Proof.
  induction evs as [|[h ev] evs IH] using rev_ind.
  - split; [|split; [|split]]; simpl.
    + split; [done|]. intros [? ?]; done.
    + exists []. split; [constructor|done].
    + intros i r Hi. by rewrite lookup_empty in Hi.
    + done.
  - rewrite exec_snoc, submitted_snoc. by apply step_settled.
Qed.

(** ** How [processJob] leaves a segment *)

(** Whatever the [catch] block does with the registry, [finally] does the
    same to the rest of the module. *)
Lemma on_throw_rest job err s :
  jobs (on_throw job err s) = jobs s ∧
  workerRunning (on_throw job err s) = false ∧
  cohereClient (on_throw job err s) = cohereClient s ∧
  awaiting (on_throw job err s) = None ∧
  timers (on_throw job err s)
  = match jobs s with [] => timers s | _ :: _ => S (timers s) end.
Proof. by destruct err. Qed.

Lemma with_client_same s : with_client (cohereClient s) s = s.
Proof. by destruct s. Qed.

(** A segment ends suspended at an await, at the end of the [try] block
    or in the [catch] block. *)
Lemma advance_cases h job p s :
  (∃ cl c k, advance h job p s =
     suspend {| task_job := job; task_call := c; task_resume := k |}
       (with_client cl s))
  ∨ (∃ cl r, advance h job p s = on_return h job r (with_client cl s))
  ∨ (∃ cl err, advance h job p s = on_throw job err (with_client cl s)).
Proof.
  revert s. induction p as [r|err|c k IH|k IH|cl k IH]; intros s; simpl.
  - right; left. exists (cohereClient s), r. by rewrite with_client_same.
  - right; right. exists (cohereClient s), err. by rewrite with_client_same.
  - destruct (is_async c).
    + left. exists (cohereClient s), c, k. by rewrite with_client_same.
    + destruct (answer h c) as [x|err]; [apply IH|].
      right; right. exists (cohereClient s), err. by rewrite with_client_same.
  - apply IH.
  - destruct (IH (with_client (Some cl) s))
      as [(cl' & c & k' & ->)|[(cl' & r & ->)|(cl' & err & ->)]].
    + left. by exists cl', c, k'.
    + right; left. by exists cl', r.
    + right; right. by exists cl', err.
Qed.

(** At the mark that claims a job, the [processJob] of every earlier
    claim has ended. *)
Lemma sequential_before_claim marks1 job marks2 claimed open :
  sequential (marks1 ++ Claimed job :: marks2) claimed open →
  ∃ before after,
    sequential marks1 before None ∧ claimed = before ++ job :: after.
Proof.
  intros Hseq. remember (marks1 ++ Claimed job :: marks2) as marks eqn:Hm.
  revert marks2 Hm.
  induction Hseq as [|marks claimed j Hs IH|marks claimed j mark Hs IH Hend];
    intros marks2 Hm.
  - by destruct marks1.
  - destruct marks2 as [|m marks2 _] using rev_ind.
    + apply app_inj_tail in Hm as [Hm1 Hm2].
      injection Hm2 as Hm2. subst. by exists claimed, [].
    + rewrite app_comm_cons, app_assoc in Hm.
      apply app_inj_tail in Hm as [Hm1 Hm2].
      destruct (IH _ Hm1) as (before & after & Hb & ->).
      exists before, (after ++ [j]). split; [done|]. by rewrite <- app_assoc.
  - destruct marks2 as [|m marks2 _] using rev_ind.
    + apply app_inj_tail in Hm as [_ Hm2]. by subst mark.
    + rewrite app_comm_cons, app_assoc in Hm.
      apply app_inj_tail in Hm as [Hm1 Hm2].
      by apply (IH _ Hm1).
Qed.

(** X18. At most one [processJob] runs at any instant.  In every
    reachable state: [processNext] changes nothing while [workerRunning]
    is set; the flag is set exactly while a [processJob] is suspended at
    an await; in the history the [processJob] of every claimed job has
    ended before the next claim, but for the job in flight; while a job is
    in flight neither [enqueue] nor a timer claims another one or touches
    a record; the flag is released only by the step that ends the
    [processJob] of the job in flight, which either writes the terminal
    status of that job or, when the [catch] block itself throws, writes
    nothing at all; and a claim sets the flag before [processJob]
    starts. *)
Theorem single_flight (s : State) :
  reachable s →
  (∀ h, workerRunning s = true → processNext h s = s) ∧
  (workerRunning s = true ↔ ∃ t, awaiting s = Some t) ∧
  (∃ claimed, sequential (history s) claimed (in_flight s)) ∧
  (∀ h ev t, awaiting s = Some t → ev ≠ PromiseSettles →
     awaiting (step h ev s) = Some t ∧
     workerRunning (step h ev s) = true ∧
     history (step h ev s) = history s ∧
     statuses (step h ev s) = statuses s) ∧
  (∀ h ev, workerRunning s = true → workerRunning (step h ev s) = false →
     ∃ job,
       in_flight s = Some job ∧ ev = PromiseSettles ∧
       ((∃ st r,
           history (step h ev s) = history s ++ [Finished job st] ∧
           statuses (step h ev s) !! id job = Some r ∧
           status r = Some st ∧
           is_terminal (status r) = true)
        ∨ (history (step h ev s) = history s ++ [Escaped job] ∧
           statuses (step h ev s) = statuses s))) ∧
  (∀ h job rest, workerRunning s = false → jobs s = job :: rest →
     ∃ s', processNext h s = processJob h job s' ∧
           workerRunning s' = true ∧
           history s' = history s ++ [Claimed job]).
Proof.
  intros [evs ->].
  pose proof (exec_settled evs) as Hs.
  set (s := exec evs initial) in *.
  assert (Hrun : ∀ t, awaiting s = Some t → workerRunning s = true).
  { intros t Ht. destruct Hs as (Hw & _). apply Hw. eauto. }
  assert (Hnoop : ∀ h, workerRunning s = true → processNext h s = s).
  { intros h Hw. unfold processNext. by rewrite Hw. }
  assert (Hcatch : ∀ job err cl,
    (∃ st r,
        history (on_throw job err (with_client cl s))
          = history s ++ [Finished job st] ∧
        statuses (on_throw job err (with_client cl s)) !! id job = Some r ∧
        status r = Some st ∧ is_terminal (status r) = true)
    ∨ (history (on_throw job err (with_client cl s))
         = history s ++ [Escaped job] ∧
       statuses (on_throw job err (with_client cl s)) = statuses s)).
  { intros job [|msg] cl; simpl.
    - by right.
    - left. exists Error. eexists. split; [done|].
      split; [apply upsert_lookup_eq|done]. }
  split; [done|]. split.
  { destruct Hs as (Hwa & _). split; [by apply Hwa|]. intros [t Ht]. eauto. }
  split.
  { destruct Hs as (_ & (claimed & Hseq & _) & _). eauto. }
  split.
  { intros h ev t Ht Hev. pose proof (Hrun t Ht) as Hw.
    destruct ev as [job| |]; [| |done]; simpl.
    - unfold enqueue, processNext. simpl. rewrite Hw. done.
    - unfold timer. destruct (timers s); [done|].
      unfold processNext. simpl. rewrite Hw. done. }
  split.
  { intros h ev Hw Hw'.
    destruct Hs as (Hwa & _). destruct (proj1 Hwa Hw) as [t Ht].
    destruct ev as [job| |].
    - simpl in Hw'. unfold enqueue, processNext in Hw'. simpl in Hw'.
      rewrite Hw in Hw'. simpl in Hw'. congruence.
    - simpl in Hw'. unfold timer in Hw'. destruct (timers s); [congruence|].
      unfold processNext in Hw'. simpl in Hw'. rewrite Hw in Hw'.
      simpl in Hw'. congruence.
    - simpl in *. unfold settle in *. rewrite Ht in *.
      unfold in_flight. rewrite Ht. simpl.
      exists (task_job t). split; [done|]. split; [done|].
      destruct (answer h (task_call t)) as [x|err].
      + destruct (advance_cases h (task_job t) (task_resume t x) s)
          as [(cl & c & k & Heq)|[(cl & r & Heq)|(cl & err & Heq)]];
          rewrite Heq in *.
        * simpl in Hw'. congruence.
        * left. exists Done. eexists. split; [done|].
          split; [simpl; apply upsert_lookup_eq|done].
        * apply Hcatch.
      + rewrite <- (with_client_same s) at 1 3. apply Hcatch. }
  intros h job rest Hw Hj. unfold processNext. rewrite Hw, Hj.
  eexists. split; [reflexivity|]. done.
Qed.

(** X19. Jobs are claimed in submission order and strictly one after the
    other.  After any run of the event loop: the jobs claimed so far, in
    the order of their claims, followed by the pending queue are exactly
    the submitted jobs in submission order, and the [processJob] of every
    claimed job but the one in flight has ended before the next claim; at
    the mark that claims a job B every job submitted before B has been
    claimed and its [processJob] has ended; and a record has status
    [Processing] only for the job in flight or for a job whose [catch]
    block threw. *)
Theorem fifo_order (evs : list (Host * Event)) :
  (∃ claimed,
     sequential (history (exec evs initial)) claimed
       (in_flight (exec evs initial))
     ∧ submitted evs = claimed ++ jobs (exec evs initial)) ∧
  (∀ marks1 B marks2,
     history (exec evs initial) = marks1 ++ Claimed B :: marks2 →
     ∃ before after,
       sequential marks1 before None ∧
       submitted evs = before ++ B :: after) ∧
  (∀ i r, statuses (exec evs initial) !! i = Some r →
     status r = Some Processing →
     (∃ job, in_flight (exec evs initial) = Some job ∧ id job = i)
     ∨ escaped (exec evs initial) i).
Proof.
  destruct (exec_settled evs) as (_ & (claimed & Hseq & Hsub) & Hproc & _).
  split; [eauto|split; [|done]].
  intros marks1 B marks2 Hh. rewrite Hh in Hseq.
  destruct (sequential_before_claim _ _ _ _ _ Hseq) as (before & after & Hb & ->).
  exists before, (after ++ jobs (exec evs initial)). split; [done|].
  rewrite Hsub. by rewrite <- app_assoc.
Qed.

(** ** A rejection without a reason *)

(** C1. The flag is released although the job has no terminal status.
    [report_job] is claimed and [notes_job] queued behind it; the promise
    [report_job] awaits is rejected with [undefined].  Reading
    [err.message] in the [catch] block throws, so the record of
    [report_job] is left as the claim wrote it, with status [Processing],
    while [finally] releases the flag and sets the timer.  When the timer
    fires [notes_job] is claimed: the worker flag is set for it and two
    records have status [Processing]. *)
Theorem flag_released_without_terminal_status :
  workerRunning (exec report_dropped initial) = false ∧
  awaiting (exec report_dropped initial) = None ∧
  statuses (exec report_dropped initial) !! id report_job
    = Some report_processing ∧
  is_terminal (status report_processing) = false ∧
  timers (exec report_dropped initial) = 1%nat ∧
  workerRunning (exec notes_claimed initial) = true ∧
  in_flight (exec notes_claimed initial) = Some notes_job ∧
  status <$> statuses (exec notes_claimed initial) !! id report_job
    = Some (Some Processing) ∧
  status <$> statuses (exec notes_claimed initial) !! id notes_job
    = Some (Some Processing).
Proof. vm_compute. repeat split; reflexivity. Qed.

(** C2. A job is claimed while the record of an earlier job still has
    status [Processing].  [report_job] is submitted before [notes_job];
    the promise [report_job] awaits is rejected with [undefined].
    [notes_job] is then claimed although no terminal write for
    [report_job] precedes the claim, both records have status
    [Processing] at that instant, and when [notes_job] has reached status
    [Done] the record of [report_job] still has status [Processing]. *)
Theorem next_job_claimed_before_terminal_status :
  submitted notes_done = [report_job; notes_job] ∧
  history (exec notes_claimed initial)
    = [Claimed report_job; Escaped report_job; Claimed notes_job] ∧
  status <$> statuses (exec notes_claimed initial) !! id report_job
    = Some (Some Processing) ∧
  status <$> statuses (exec notes_claimed initial) !! id notes_job
    = Some (Some Processing) ∧
  history (exec notes_done initial)
    = [Claimed report_job; Escaped report_job;
       Claimed notes_job; Finished notes_job Done] ∧
  status <$> statuses (exec notes_done initial) !! id notes_job
    = Some (Some Done) ∧
  statuses (exec notes_done initial) !! id report_job
    = Some report_processing.
Proof. vm_compute. repeat split; reflexivity. Qed.

(** ** One job under a steady host *)

Lemma run_bind {A B} h cl (p : Prog A) (f : A → Prog B) :
  run h cl (bind p f) =
  match run h cl p with
  | (Returned a, cl', cs) =>
      let '(o, cl'', cs') := run h cl' (f a) in (o, cl'', cs ++ cs')
  | (Threw err, cl', cs) => (Threw err, cl', cs)
  end.
Proof.
  revert cl. induction p as [a|err|c k IH|k IH|c k IH]; intros cl; simpl.
  - by destruct (run h cl (f a)) as [[o cl'] cs].
  - done.
  - destruct (answer h c) as [x|err]; [|done].
    rewrite IH. destruct (run h cl (k x)) as [[[a|err] cl'] cs]; [|done].
    by destruct (run h cl' (f a)) as [[o cl''] cs'].
  - apply IH.
  - apply IH.
Qed.

(** The awaiting slot is overwritten by whatever ends a segment. *)
Lemma advance_suspend h job p t s :
  advance h job p (suspend t s) = advance h job p s.
Proof.
  revert s. induction p as [r|err|c k IH|k IH|cl k IH]; intros s; simpl.
  - done.
  - done.
  - destruct (is_async c); [done|]. destruct (answer h c); [apply IH|done].
  - apply IH.
  - apply (IH (with_client (Some cl) s)).
Qed.

Lemma iter_settle_succ n h s :
  Nat.iter (S n) (settle h) s = Nat.iter n (settle h) (settle h s).
Proof. by rewrite Nat.iter_succ_r. Qed.

(** Under a steady host the job started or resumed with [p] reaches its
    end after finitely many settled promises. *)
Lemma advance_complete h job p s :
  ∃ n, Nat.iter n (settle h) (advance h job p s) = complete h job p s.
Proof.
  revert s. induction p as [r|err|c k IH|k IH|cl k IH]; intros s.
  - exists 0%nat. unfold complete. simpl. by rewrite with_client_same.
  - exists 0%nat. unfold complete. simpl. by rewrite with_client_same.
  - assert (Hc : complete h job (Do c k) s =
                 match answer h c with
                 | Returned x => complete h job (k x) s
                 | Threw err => on_throw job err s
                 end).
    { unfold complete. simpl. destruct (answer h c) as [x|err].
      - by destruct (run h (cohereClient s) (k x)) as [[[r|err] cl'] cs].
      - by rewrite with_client_same. }
    rewrite Hc. simpl. destruct (is_async c).
    + destruct (answer h c) as [x|err] eqn:Hans.
      * destruct (IH x s) as [n Hn]. exists (S n).
        rewrite iter_settle_succ. unfold settle at 2. simpl. rewrite Hans.
        by rewrite advance_suspend.
      * exists 1%nat. simpl. unfold settle. simpl. by rewrite Hans.
    + destruct (answer h c) as [x|err]; [apply IH|by exists 0%nat].
  - apply (IH (cohereClient s) s).
  - apply (IH (with_client (Some cl) s)).
Qed.

(** ** The failure boundary *)

Lemma error_message_spec err :
  (∀ m, thrown_message err = Some m → m ≠ [] → error_message err = m) ∧
  (thrown_message err = None ∨ thrown_message err = Some [] →
   error_message err = js "Processing failed").
Proof.
  unfold error_message. split.
  - intros m -> Hm. by destruct m.
  - by intros [-> | ->].
Qed.

(** A throw out of the [try] block leads to the [catch] block. *)
Lemma throw_reaches_catch h job s err cl cs :
  run h (cohereClient s) (processJob_try h job) = (Threw err, cl, cs) →
  ∃ n, Nat.iter n (settle h) (processJob h job s)
       = on_throw job err (with_client cl s).
Proof.
  intros Hrun.
  destruct (advance_complete h job (processJob_try h job) s) as [n Hn].
  exists n. unfold processJob. rewrite Hn. unfold complete. by rewrite Hrun.
Qed.

(** What the [catch] and [finally] blocks leave behind when [err.message]
    can be read. *)
Lemma on_throw_spec job err s :
  err ≠ Nullish →
  ∃ r,
    statuses (on_throw job err s) !! id job = Some r ∧
    status r = Some Error ∧
    (∀ m, thrown_message err = Some m → m ≠ [] → message r = Some m) ∧
    (thrown_message err = None ∨ thrown_message err = Some [] →
     message r = Some (js "Processing failed")) ∧
    workerRunning (on_throw job err s) = false ∧
    awaiting (on_throw job err s) = None ∧
    jobs (on_throw job err s) = jobs s ∧
    (∀ next rest, jobs s = next :: rest →
       timers (on_throw job err s) = S (timers s) ∧
       ∀ h', ∃ s' r',
         step h' TimerFires (on_throw job err s) = processJob h' next s' ∧
         workerRunning s' = true ∧ jobs s' = rest ∧
         statuses s' !! id next = Some r' ∧ status r' = Some Processing).
Proof.
  intros Hv. destruct err as [|msg]; [done|].
  destruct (error_message_spec (Value msg)) as [Hmsg Hdef].
  eexists. split; [simpl; apply upsert_lookup_eq|].
  split; [done|]. split.
  { intros m Hm Hne. simpl. simpl in Hmsg. by rewrite (Hmsg m Hm Hne). }
  split.
  { intros Hno. simpl. simpl in Hdef. by rewrite (Hdef Hno). }
  split; [done|]. split; [done|]. split; [done|].
  intros next rest Hj. simpl. rewrite Hj. split; [done|].
  intros h'. unfold timer, processNext. simpl. rewrite Hj.
  eexists. eexists. split; [reflexivity|]. simpl.
  split; [done|]. split; [done|]. split; [apply upsert_lookup_eq|done].
Qed.

(** X20. A thrown value other than [null] and [undefined] ends in an
    error record.  Whatever such value is thrown in the [try] block of
    [processJob], after finitely many settled promises the record of the
    job has status [Error] and the message of the value, or "Processing
    failed" when the value has no (or an empty) message; the worker is
    released with nothing left suspended, the pending queue is untouched,
    and when it is not empty a timer is set whose callback claims the
    next job.  The same holds, in any state of the module, for the step in
    which the awaited promise is rejected with such a value.  When the
    awaited promise is rejected with [null] or [undefined] instead, that
    step writes no record at all and still releases the worker. *)
Theorem thrown_values_are_recorded :
  (∀ h job s err cl cs,
     run h (cohereClient s) (processJob_try h job) = (Threw err, cl, cs) →
     err ≠ Nullish →
     ∃ n r,
       statuses (Nat.iter n (settle h) (processJob h job s)) !! id job
         = Some r ∧
       status r = Some Error ∧
       (∀ m, thrown_message err = Some m → m ≠ [] → message r = Some m) ∧
       (thrown_message err = None ∨ thrown_message err = Some [] →
        message r = Some (js "Processing failed")) ∧
       workerRunning (Nat.iter n (settle h) (processJob h job s)) = false ∧
       awaiting (Nat.iter n (settle h) (processJob h job s)) = None ∧
       jobs (Nat.iter n (settle h) (processJob h job s)) = jobs s ∧
       (∀ next rest, jobs s = next :: rest →
          timers (Nat.iter n (settle h) (processJob h job s)) = S (timers s) ∧
          ∀ h', ∃ s' r',
            step h' TimerFires (Nat.iter n (settle h) (processJob h job s))
              = processJob h' next s' ∧
            workerRunning s' = true ∧ jobs s' = rest ∧
            statuses s' !! id next = Some r' ∧ status r' = Some Processing)) ∧
  (∀ h s t err,
     awaiting s = Some t → answer h (task_call t) = Threw err →
     err ≠ Nullish →
     ∃ r,
       statuses (settle h s) !! id (task_job t) = Some r ∧
       status r = Some Error ∧
       (∀ m, thrown_message err = Some m → m ≠ [] → message r = Some m) ∧
       (thrown_message err = None ∨ thrown_message err = Some [] →
        message r = Some (js "Processing failed")) ∧
       workerRunning (settle h s) = false ∧
       awaiting (settle h s) = None ∧
       jobs (settle h s) = jobs s ∧
       (∀ next rest, jobs s = next :: rest →
          timers (settle h s) = S (timers s) ∧
          ∀ h', ∃ s' r',
            step h' TimerFires (settle h s) = processJob h' next s' ∧
            workerRunning s' = true ∧ jobs s' = rest ∧
            statuses s' !! id next = Some r' ∧ status r' = Some Processing)) ∧
  (∀ h s t,
     awaiting s = Some t → answer h (task_call t) = Threw Nullish →
     statuses (settle h s) = statuses s ∧
     history (settle h s) = history s ++ [Escaped (task_job t)] ∧
     workerRunning (settle h s) = false ∧
     awaiting (settle h s) = None ∧
     jobs (settle h s) = jobs s ∧
     (∀ next rest, jobs s = next :: rest →
        timers (settle h s) = S (timers s))).
Proof.
  split; [|split].
  - intros h job s err cl cs Hrun Hv.
    destruct (throw_reaches_catch _ _ _ _ _ _ Hrun) as [n Hn].
    exists n. rewrite Hn. by apply (on_throw_spec job err (with_client cl s)).
  - intros h s t err Ht Hans Hv. unfold settle. rewrite Ht, Hans.
    by apply on_throw_spec.
  - intros h s t Ht Hans. unfold settle. rewrite Ht, Hans. simpl.
    repeat (split; [done|]). intros next rest ->. done.
Qed.

(** C3. A rejection with [undefined] is not turned into an error record.
    [report_job] waits for the PDF backend, whose promise is rejected
    with [undefined].  The step that delivers the rejection leaves
    [statuses] exactly as it was: the record of [report_job] keeps the
    status [Processing] and gets no message.  The history ends with the
    mark of a [processJob] whose [catch] block threw, that is, whose
    promise is rejected in turn, and the worker is released. *)
Theorem nullish_rejection_is_not_recorded :
  in_flight (exec report_awaited initial) = Some report_job ∧
  (∀ buffer, answer (demo_host [] bare_rejection_world) (PdfParse buffer)
             = Threw Nullish) ∧
  statuses (exec report_dropped initial)
    = statuses (exec report_awaited initial) ∧
  statuses (exec report_dropped initial) !! id report_job
    = Some report_processing ∧
  status report_processing = Some Processing ∧
  message report_processing = None ∧
  history (exec report_dropped initial)
    = [Claimed report_job; Escaped report_job] ∧
  workerRunning (exec report_dropped initial) = false.
Proof.
  split; [by vm_compute|]. split; [done|].
  split; [by vm_compute|]. split; [by vm_compute|]. done.
Qed.

(** ** The guard *)

Lemma extraction_only_bind {A B} (p : Prog A) (f : A → Prog B) :
  extraction_only p → (∀ a, extraction_only (f a)) → extraction_only (bind p f).
Proof.
  intros Hp Hf. induction Hp as [a|err|c k Hc Hk IH]; simpl.
  - apply Hf.
  - constructor.
  - by constructor.
Qed.

Lemma extraction_only_call {A} c (f : Resp c → A) :
  is_generation_call c = false → extraction_only (Do c (λ x, Ret (f x))).
Proof. intros Hc. constructor; [done|]. intros x. constructor. Qed.

Lemma slides_loop_extraction_only zip names i text :
  extraction_only (slides_loop zip names i text).
Proof.
  revert i text. induction names as [|name rest IH]; intros i text; simpl.
  - constructor.
  - constructor; [done|]. intros slideXml. apply IH.
Qed.

Lemma extract_extraction_only h job : extraction_only (extract h job).
Proof.
  unfold extract. destruct (dispatch _).
  - constructor; [done|]. intros buffer. simpl.
    constructor; [done|]. intros text. constructor.
  - constructor; [done|]. intros buffer. simpl.
    constructor; [done|]. intros zip. apply slides_loop_extraction_only.
  - constructor; [done|]. intros buffer. simpl.
    constructor; [done|]. intros text. constructor.
  - constructor; [done|]. intros text. constructor.
  - constructor.
Qed.

Lemma run_extraction_only {A} h cl (p : Prog A) :
  extraction_only p →
  (run h cl p).1.2 = cl ∧
  Forall (λ c, is_generation_call c = false) (run h cl p).2.
Proof.
  intros Hp. induction Hp as [a|err|c k Hc Hk IH]; simpl.
  - done.
  - done.
  - destruct (answer h c) as [x|err].
    + destruct (IH x) as [Hcl Hcs].
      destruct (run h cl (k x)) as [[o cl'] cs]. simpl in *.
      split; [done|]. by constructor.
    + simpl. split; [done|]. by constructor.
Qed.

Lemma too_short_spec text :
  (length (trim text) < 20)%nat → too_short text = true.
Proof.
  intros H. unfold too_short. destruct text; [done|]. by apply Nat.ltb_lt.
Qed.

(** C4. When the extracted text, trimmed, has fewer than 20 code units
    (an empty text included), the job ends with status [Error] and the
    message of the guard, and no call of the generation stage (reading
    the API key, building the client, chat) is made for it. *)
Theorem short_text_is_error h job s text cl cs :
  run h (cohereClient s) (extract h job) = (Returned text, cl, cs) →
  (length (trim text) < 20)%nat →
  run h (cohereClient s) (processJob_try h job)
    = (Threw (new_Error not_enough_text), cl, cs) ∧
  Forall (λ c, is_generation_call c = false) cs ∧
  ∃ n r,
    statuses (Nat.iter n (settle h) (processJob h job s)) !! id job = Some r ∧
    status r = Some Error ∧
    message r = Some not_enough_text.
Proof.
  intros Hrun Hlen.
  assert (Htry : run h (cohereClient s) (processJob_try h job)
                 = (Threw (new_Error not_enough_text), cl, cs)).
  { unfold processJob_try, mbind, Prog_bind. rewrite run_bind, Hrun.
    rewrite (too_short_spec _ Hlen). simpl. by rewrite app_nil_r. }
  split; [done|]. split.
  { pose proof (run_extraction_only h (cohereClient s) _
                  (extract_extraction_only h job)) as [_ Hcs].
    by rewrite Hrun in Hcs. }
  destruct (throw_reaches_catch _ _ _ _ _ _ Htry) as [n Hn].
  exists n. rewrite Hn. eexists.
  split; [simpl; apply upsert_lookup_eq|]. done.
Qed.

(** ** Strings *)

Lemma trimStart_In c s : is_space c = false → In c (trimStart s) ↔ In c s.
Proof.
  intros Hc. induction s as [|x s IH]; simpl; [done|].
  destruct (is_space x) eqn:Hx; [|done].
  rewrite IH. split; [auto|]. intros [->|H]; [congruence|done].
Qed.

Lemma trim_In c s : is_space c = false → In c (trim s) ↔ In c s.
Proof.
  intros Hc. unfold trim, trimEnd.
  rewrite <- in_rev, trimStart_In, <- in_rev, trimStart_In; done.
Qed.

Lemma indexOf_absent s c : ¬ In c s → indexOf s c = (-1)%Z.
Proof.
  induction s as [|x s IH]; simpl; [done|]. intros Hn.
  destruct (N.eqb_spec x c) as [->|Hx]; [tauto|].
  rewrite IH by tauto. reflexivity.
Qed.

Lemma lastIndexOf_absent s c : ¬ In c s → lastIndexOf s c = (-1)%Z.
Proof.
  induction s as [|x s IH]; simpl; [done|]. intros Hn.
  rewrite IH by tauto. simpl.
  destruct (N.eqb_spec x c) as [->|Hx]; [tauto|done].
Qed.

(** [indexOf] finds the first occurrence. *)
Lemma indexOf_first s c :
  In c s →
  ∃ pre post, s = pre ++ c :: post ∧ ¬ In c pre
              ∧ indexOf s c = Z.of_nat (length pre).
Proof.
  induction s as [|x s IH]; simpl; [done|]. intros Hin.
  destruct (N.eqb_spec x c) as [->|Hx].
  - exists [], s. simpl. split; [reflexivity|]. split; [tauto|reflexivity].
  - destruct Hin as [->|Hin]; [done|].
    destruct (IH Hin) as (pre & post & -> & Hpre & Hi).
    exists (x :: pre), post. split; [done|]. split.
    + intros [->|H]; done.
    + rewrite Hi. simpl length.
      destruct (Z.ltb_spec (Z.of_nat (length pre)) 0); lia.
Qed.

(** [lastIndexOf] finds the last occurrence. *)
Lemma lastIndexOf_last s c :
  In c s →
  ∃ pre post, s = pre ++ c :: post ∧ ¬ In c post
              ∧ lastIndexOf s c = Z.of_nat (length pre).
Proof.
  induction s as [|x s IH]; simpl; [done|]. intros Hin.
  destruct (in_dec N.eq_dec c s) as [Hs|Hs].
  - destruct (IH Hs) as (pre & post & -> & Hpost & Hi).
    exists (x :: pre), post. split; [done|]. split; [done|].
    rewrite Hi. simpl length.
    destruct (Z.leb_spec 0 (Z.of_nat (length pre))); lia.
  - destruct Hin as [->|Hin]; [|done].
    exists [], s. rewrite (lastIndexOf_absent _ _ Hs). simpl.
    by rewrite N.eqb_refl.
Qed.

Lemma slice_within s (a b : nat) :
  (a ≤ length s)%nat → (b ≤ length s)%nat →
  slice s (Z.of_nat a) (Z.of_nat b) = take (b - a) (drop a s).
Proof.
  intros Ha Hb. unfold slice, clamp_index.
  destruct (Z.ltb_spec (Z.of_nat a) 0); [lia|].
  destruct (Z.ltb_spec (Z.of_nat b) 0); [lia|].
  rewrite !Z.min_l by lia. rewrite Nat2Z.id.
  f_equal. lia.
Qed.

(** ** The concept-map parser *)

Lemma parseConceptMap_found text (a b : nat) :
  indexOf (trim text) 123 = Z.of_nat a →
  lastIndexOf (trim text) 125 = Z.of_nat b →
  parseConceptMap text
  = Json.parse (slice (trim text) (Z.of_nat a) (Z.of_nat (S b))).
Proof.
  intros Ha Hb. unfold parseConceptMap. rewrite Ha, Hb.
  destruct (Z.eqb_spec (Z.of_nat a) (-1)); [lia|].
  destruct (Z.eqb_spec (Z.of_nat b) (-1)); [lia|].
  simpl. do 2 f_equal. lia.
Qed.

(** C6. When the response contains both braces, the parser cuts the
    trimmed response at the first opening brace and the last closing
    brace: the trimmed response is [pre], the slice, [post], with no
    opening brace in [pre] and no closing brace in [post], and the
    concept map is [JSON.parse] of the slice, braces included.  (When the
    last closing brace comes before the first opening brace the slice is
    empty and the concept map is null.)  For the example response the
    concept map is the object with one node A labelled X and no edge. *)
Theorem concept_map_slice :
  (∀ text, In 123 text → In 125 text →
     (∃ pre inner post,
        trim text = pre ++ [123] ++ inner ++ [125] ++ post ∧
        ¬ In 123 pre ∧ ¬ In 125 post ∧
        parseConceptMap text = Json.parse ([123] ++ inner ++ [125]))
     ∨ (∃ pre between post,
          trim text = pre ++ [125] ++ between ++ [123] ++ post ∧
          ¬ In 123 (pre ++ [125] ++ between) ∧
          ¬ In 125 (between ++ [123] ++ post) ∧
          parseConceptMap text = None)) ∧
  parseConceptMap example_response
  = Some (Json.JObject
            [(js "nodes",
              Json.JArray
                [Json.JObject [(js "id", Json.JString (js "A"));
                               (js "label", Json.JString (js "X"))]]);
             (js "edges", Json.JArray [])]).
Proof.
  split; [|by vm_compute].
  intros text Hopen Hclose.
  apply (trim_In 123) in Hopen; [|done].
  apply (trim_In 125) in Hclose; [|done].
  destruct (indexOf_first _ _ Hopen) as (pre & post & Hraw & Hpre & Hi).
  destruct (lastIndexOf_last _ _ Hclose) as (pre' & post' & Hraw' & Hpost' & Hj).
  rewrite (parseConceptMap_found _ _ _ Hi Hj).
  assert (Hlen : length (trim text) = (length pre + S (length post))%nat).
  { rewrite Hraw at 1. rewrite length_app. done. }
  assert (Hlen' : length (trim text) = (length pre' + S (length post'))%nat).
  { rewrite Hraw' at 1. rewrite length_app. done. }
  rewrite slice_within by lia.
  pose proof Hraw' as Heq. rewrite Hraw in Heq.
  apply app_eq_app in Heq as [l [[Hp Hq]|[Hp Hq]]].
  - (* the closing brace comes first *)
    destruct l as [|x l].
    { simpl in Hq. injection Hq as Hq _. lia. }
    simpl in Hq. injection Hq as <- ->.
    right. exists pre', l, post. split; [|split; [|split]].
    + rewrite Hraw, Hp. by rewrite <- app_assoc.
    + by rewrite Hp in Hpre.
    + done.
    + rewrite Hp, length_app. simpl.
      replace (S (length pre') - (length pre' + S (length l)))%nat with 0%nat by lia.
      done.
  - (* the opening brace comes first *)
    destruct l as [|x l].
    { simpl in Hq. injection Hq as Hq _. lia. }
    simpl in Hq. injection Hq as <- ->.
    left. exists pre, l, post'. split; [|split; [|split]].
    + rewrite Hraw. done.
    + done.
    + done.
    + rewrite Hraw, Hp. rewrite drop_app_length.
      rewrite length_app. simpl.
      replace (S (length pre + S (length l)) - length pre)%nat
        with (S (S (length l))) by lia.
      simpl. do 2 f_equal.
      change (l ++ 125 :: post') with (l ++ [125] ++ post').
      rewrite app_assoc. apply take_app_length'. rewrite length_app. simpl. lia.
Qed.

(** A return out of the [try] block leads to the terminal write. *)
Lemma return_reaches_end h job s r cl cs :
  run h (cohereClient s) (processJob_try h job) = (Returned r, cl, cs) →
  ∃ n, Nat.iter n (settle h) (processJob h job s)
       = on_return h job r (with_client cl s).
Proof.
  intros Hrun.
  destruct (advance_complete h job (processJob_try h job) s) as [n Hn].
  exists n. unfold processJob. rewrite Hn. unfold complete. by rewrite Hrun.
Qed.

Lemma parseConceptMap_null text :
  ¬ In 123 text ∨ ¬ In 125 text
  ∨ Json.parse (slice (trim text) (indexOf (trim text) 123)
                  (lastIndexOf (trim text) 125 + 1)) = None →
  parseConceptMap text = None.
Proof.
  unfold parseConceptMap. intros [H|[H|H]].
  - rewrite indexOf_absent; [done|]. by rewrite trim_In.
  - rewrite (lastIndexOf_absent (trim text)); [|by rewrite trim_In].
    by rewrite orb_true_r.
  - rewrite H. by destruct (_ || _).
Qed.

(** The generation stage once the client is there and both chat calls
    answer. *)
Lemma run_generate h cl text cohere cl' cs summaryRes conceptRes :
  run h cl initCohere = (Returned cohere, cl', cs) →
  answer h (Chat cohere chat_model (summary_prompt text) 1400)
    = Returned summaryRes →
  answer h (Chat cohere chat_model (conceptPrompt text) 1400)
    = Returned conceptRes →
  run h cl (generate text)
  = (Returned {| summary := summaryRes;
                 conceptMap := parseConceptMap conceptRes |},
     cl',
     cs ++ [Chat cohere chat_model (summary_prompt text) 1400;
            Chat cohere chat_model (conceptPrompt text) 1400]).
Proof.
  intros Hinit Hsum Hmap. unfold generate, mbind, Prog_bind.
  rewrite run_bind, Hinit. simpl. rewrite Hsum. simpl. rewrite Hmap. done.
Qed.

(** C7. A graph-call response without an opening brace, without a closing
    brace, or whose slice is not JSON leaves [conceptMap] null and the job
    still ends with status [Done] and the summary of the summary call in
    its result. *)
Theorem graph_failure_is_not_fatal
    h job s text cl0 cs0 cohere cl1 cs1 summaryRes conceptRes :
  run h (cohereClient s) (extract h job) = (Returned text, cl0, cs0) →
  too_short text = false →
  run h cl0 initCohere = (Returned cohere, cl1, cs1) →
  answer h (Chat cohere chat_model (summary_prompt text) 1400)
    = Returned summaryRes →
  answer h (Chat cohere chat_model (conceptPrompt text) 1400)
    = Returned conceptRes →
  ¬ In 123 conceptRes ∨ ¬ In 125 conceptRes
  ∨ Json.parse (slice (trim conceptRes) (indexOf (trim conceptRes) 123)
                  (lastIndexOf (trim conceptRes) 125 + 1)) = None →
  parseConceptMap conceptRes = None ∧
  ∃ n r,
    statuses (Nat.iter n (settle h) (processJob h job s)) !! id job = Some r ∧
    status r = Some Done ∧
    result r = Some {| summary := summaryRes; conceptMap := None |}.
Proof.
  intros Hext Hlong Hinit Hsum Hmap Hbad.
  pose proof (parseConceptMap_null _ Hbad) as Hnull.
  split; [done|].
  assert (Htry : run h (cohereClient s) (processJob_try h job)
                 = (Returned {| summary := summaryRes; conceptMap := None |},
                    cl1,
                    cs0 ++ cs1 ++
                      [Chat cohere chat_model (summary_prompt text) 1400;
                       Chat cohere chat_model (conceptPrompt text) 1400])).
  { unfold processJob_try, mbind, Prog_bind. rewrite run_bind, Hext, Hlong.
    rewrite (run_generate _ _ _ _ _ _ _ _ Hinit Hsum Hmap), Hnull. done. }
  destruct (return_reaches_end _ _ _ _ _ _ Htry) as [n Hn].
  exists n. rewrite Hn. eexists.
  split; [simpl; apply upsert_lookup_eq|]. done.
Qed.

(** ** The fallback branch *)

Lemma trimEnd_keep s c : is_space c = false → trimEnd (s ++ [c]) = s ++ [c].
Proof.
  intros Hc. unfold trimEnd. rewrite rev_app_distr. simpl. rewrite Hc.
  simpl. by rewrite rev_involutive.
Qed.





(** ** Records under unique job ids *)

Lemma terminal_write_tidy sub job st (fields : StatusRecord) s :
  busy sub job s → tidy sub s →
  startedAt fields = None →
  match status fields with
  | Some Done => is_Some (result fields) ∧ message fields = None
  | Some Error => result fields = None ∧ is_Some (message fields)
  | _ => False
  end →
  tidy sub (finally (Finished job st) (upsert (id job) fields (statuses s)) s).
Proof.
  intros (_ & _ & _ & (r0 & Hr0 & Hst0)) (claimed & Hsub & Hrec) Hstart Hfields.
  exists claimed. split; [done|]. simpl. intros i r Hi.
  destruct (decide (id job = i)) as [<-|Hij].
  - destruct (Hrec _ _ Hr0) as [[Hs0 Hshape0] Hin]. split; [|done].
    rewrite upsert_lookup_eq, Hr0 in Hi. injection Hi as <-.
    rewrite Hst0 in Hshape0. destruct Hshape0 as [Hres0 Hmsg0].
    unfold record_shape. simpl. rewrite Hstart, Hres0, Hmsg0. simpl.
    split; [done|].
    destruct (status fields) as [[| |]|]; simpl; try done.
    + destruct Hfields as [[x ->] ->]. simpl. eauto.
    + destruct Hfields as [-> [x ->]]. simpl. eauto.
  - rewrite upsert_lookup_ne in Hi by done. by apply Hrec.
Qed.

Lemma on_throw_tidy sub job err s :
  busy sub job s → tidy sub s → tidy sub (on_throw job err s).
Proof.
  intros Hb Ht. destruct err as [|msg]; simpl.
  - destruct Ht as (claimed & Hsub & Hrec). by exists claimed.
  - apply terminal_write_tidy; [done..|]. simpl. eauto.
Qed.

Lemma advance_tidy sub h job p s :
  busy sub job s → tidy sub s → tidy sub (advance h job p s).
Proof.
  revert s. induction p as [r|err|c k IH|k IH|cl k IH]; intros s Hb Ht; simpl.
  - apply terminal_write_tidy; [done..|]. simpl. eauto.
  - by apply on_throw_tidy.
  - destruct (is_async c); [done|].
    destruct (answer h c); [by apply IH|by apply on_throw_tidy].
  - by apply IH.
  - by apply IH.
Qed.

Lemma claim_tidy sub h job rest s :
  NoDup (map id sub) → tidy sub s → jobs s = job :: rest →
  tidy sub (claim h job rest s).
Proof.
  intros Hnd (claimed & Hsub & Hrec) Hj.
  exists (claimed ++ [job]). split.
  { simpl. rewrite Hsub, Hj. by rewrite <- app_assoc. }
  assert (Hfresh : statuses s !! id job = None).
  { destruct (statuses s !! id job) as [r|] eqn:Hr; [|done].
    destruct (Hrec _ _ Hr) as [_ Hin].
    rewrite Hsub, Hj, map_app in Hnd. simpl in Hnd.
    apply NoDup_app in Hnd as (_ & Hnd & _).
    exfalso. apply (Hnd _ Hin). left. }
  simpl. intros i r Hi. rewrite map_app. simpl.
  destruct (decide (id job = i)) as [<-|Hij].
  - rewrite upsert_lookup_eq, Hfresh in Hi. injection Hi as <-.
    split; [|apply elem_of_app; right; constructor].
    unfold record_shape. simpl. eauto.
  - rewrite upsert_lookup_ne in Hi by done.
    destruct (Hrec _ _ Hi) as [Hshape Hin].
    split; [done|apply elem_of_app; by left].
Qed.

Lemma processNext_tidy sub h s :
  NoDup (map id sub) → settled sub s → tidy sub s →
  tidy sub (processNext h s).
Proof.
  intros Hnd Hs Ht. unfold processNext.
  destruct (workerRunning s) eqn:Hw; [done|].
  destruct (jobs s) as [|job rest] eqn:Hj; [done|].
  apply advance_tidy; [by apply claim_busy|by apply claim_tidy].
Qed.

Lemma step_tidy sub h ev s :
  NoDup (map id (sub ++ match ev with Enqueue job => [job] | _ => [] end)) →
  settled sub s → tidy sub s →
  tidy (sub ++ match ev with Enqueue job => [job] | _ => [] end) (step h ev s).
Proof.
  intros Hnd Hs Ht. destruct ev as [job| |]; simpl.
  - unfold enqueue. apply processNext_tidy; [done| |].
    + destruct Hs as (Hwa & (claimed & Hseq & Hsub) & Hproc).
      split; [done|split; [|done]].
      exists claimed. split; [done|]. simpl. rewrite Hsub. by rewrite <- app_assoc.
    + destruct Ht as (claimed & Hsub & Hrec).
      exists claimed. split; [|done]. simpl. rewrite Hsub. by rewrite <- app_assoc.
  - rewrite app_nil_r in *. unfold timer. destruct (timers s); [done|].
    by apply processNext_tidy.
  - rewrite app_nil_r in *. unfold settle.
    destruct (awaiting s) as [t|] eqn:Hta; [|done].
    pose proof (settled_busy _ _ _ Hs Hta) as Hb.
    destruct (answer h (task_call t)).
    + by apply advance_tidy.
    + by apply on_throw_tidy.
Qed.

Lemma exec_tidy evs :
  NoDup (map id (submitted evs)) → tidy (submitted evs) (exec evs initial).
Proof.
  induction evs as [|[h ev] evs IH] using rev_ind; intros Hnd.
  - exists []. split; [done|]. intros i r Hi. simpl in Hi.
    by rewrite lookup_empty in Hi.
  - rewrite exec_snoc, submitted_snoc in *.
    apply step_tidy; [done|apply exec_settled|].
    apply IH. rewrite map_app in Hnd. by apply NoDup_app in Hnd as (? & _).
Qed.

Lemma spread_empty (fields : StatusRecord) : spread empty_record fields = fields.
Proof.
  destruct fields as [[st|] [sa|] [fa|] [res|] [msg|]]; reflexivity.
Qed.

(** C8. A status update merges into the record instead of replacing it.
    The record after [upsert] is there whether or not there was one
    before; it has every property the update names, with the value the
    update gives, and keeps every property of the old record that the
    update does not name; a first update creates the record with the
    properties it names and no other; records under other ids are not
    touched.  So the claim leaves status [Processing] and the time of the
    claim, the end of the [try] block leaves status [Done], the time and
    the result, the [catch] block, when it can read [err.message], leaves
    status [Error] and the message, each on top of what the record held,
    and the terminal record still has the [startedAt] written by the
    claim.  When the submitted jobs have pairwise distinct ids, every
    record of a reachable registry has its [startedAt], has a [result]
    only with status [Done] and a [message] only with status [Error]. *)
Theorem records_are_merged :
  (∀ i fields (m : gmap jsstring StatusRecord) r0, m !! i = Some r0 →
     ∃ r, upsert i fields m !! i = Some r ∧
       (status fields = None → status r = status r0) ∧
       (startedAt fields = None → startedAt r = startedAt r0) ∧
       (finishedAt fields = None → finishedAt r = finishedAt r0) ∧
       (result fields = None → result r = result r0) ∧
       (message fields = None → message r = message r0) ∧
       (∀ v, status fields = Some v → status r = Some v) ∧
       (∀ v, startedAt fields = Some v → startedAt r = Some v) ∧
       (∀ v, finishedAt fields = Some v → finishedAt r = Some v) ∧
       (∀ v, result fields = Some v → result r = Some v) ∧
       (∀ v, message fields = Some v → message r = Some v)) ∧
  (∀ i fields (m : gmap jsstring StatusRecord), m !! i = None →
     upsert i fields m !! i = Some fields) ∧
  (∀ i j fields (m : gmap jsstring StatusRecord), i ≠ j →
     upsert i fields m !! j = m !! j) ∧
  (∀ h job rest s,
     ∃ r, statuses (claim h job rest s) !! id job = Some r ∧
       status r = Some Processing ∧
       startedAt r = Some (now h) ∧
       (statuses s !! id job = None →
        finishedAt r = None ∧ result r = None ∧ message r = None) ∧
       (∀ r0, statuses s !! id job = Some r0 →
        finishedAt r = finishedAt r0 ∧ result r = result r0 ∧
        message r = message r0)) ∧
  (∀ h job res err s r0, statuses s !! id job = Some r0 →
     (∃ r, statuses (on_return h job res s) !! id job = Some r
           ∧ startedAt r = startedAt r0
           ∧ status r = Some Done
           ∧ finishedAt r = Some (now h)
           ∧ result r = Some res
           ∧ message r = message r0) ∧
     (∃ r, statuses (on_throw job err s) !! id job = Some r
           ∧ startedAt r = startedAt r0
           ∧ (err ≠ Nullish →
              status r = Some Error
              ∧ message r = Some (error_message err)
              ∧ finishedAt r = finishedAt r0
              ∧ result r = result r0))) ∧
  (∀ evs, NoDup (map id (submitted evs)) →
     ∀ i r, statuses (exec evs initial) !! i = Some r →
       is_Some (startedAt r) ∧
       (is_Some (result r) → status r = Some Done) ∧
       (is_Some (message r) → status r = Some Error)).
Proof.
  split; [|split; [|split; [|split; [|split]]]].
  - intros i fields m r0 Hr0. eexists. split; [apply upsert_lookup_eq|].
    rewrite Hr0. simpl.
    repeat split; try (intros ->; done); intros v ->; done.
  - intros i fields m Hnone. rewrite upsert_lookup_eq, Hnone. simpl.
    by rewrite spread_empty.
  - intros i j fields m Hij. by apply upsert_lookup_ne.
  - intros h job rest s. eexists. split; [simpl; apply upsert_lookup_eq|].
    split; [done|]. split; [done|]. split.
    + by intros ->.
    + by intros r0 ->.
  - intros h job res err s r0 Hr0. split.
    + eexists. split; [simpl; apply upsert_lookup_eq|]. by rewrite Hr0.
    + destruct err as [|msg].
      * exists r0. split; [done|]. split; [done|]. done.
      * eexists. split; [simpl; apply upsert_lookup_eq|]. by rewrite Hr0.
  - intros evs Hnd i r Hi.
    destruct (exec_tidy evs Hnd) as (claimed & _ & Hrec).
    destruct (Hrec _ _ Hi) as [[Hstart Hshape] _].
    split; [done|].
    destruct (status r) as [[| |]|]; [| | |done].
    + destruct Hshape as [-> ->]. split; intros [? ?]; done.
    + destruct Hshape as [_ ->]. split; [done|]. intros [? ?]; done.
    + destruct Hshape as [-> _]. split; [|done]. intros [? ?]; done.
Qed.

(** ** Slides *)



(** C5. On a presentation of ten slides the slide files are ordered as
    text, code unit by code unit, so [slide10.xml] comes second: the
    extracted text gives the content of slide 10 the label "Slide 2" and
    shifts slides 2 to 9 by one, where the numeric order of the file names
    would label every slide with its own number. *)
Theorem ten_slides_out_of_order :
  slideFiles {| files := map fst (deck ten_slides_world) |}
  = map (λ n, js "ppt/slides/slide" ++ toString n ++ js ".xml")
      [1; 10; 2; 3; 4; 5; 6; 7; 8; 9] ∧
  (run (demo_host [] ten_slides_world) None
     (extract (demo_host [] ten_slides_world) slides_job)).1.1
  = Returned
      (flat_map (λ '(label, slide),
                   js "Slide " ++ toString label ++ js ": "
                   ++ toString slide ++ [10; 10])
         [(1, 1); (2, 10); (3, 2); (4, 3); (5, 4);
          (6, 5); (7, 6); (8, 7); (9, 8); (10, 9)]) ∧
  (run (demo_host [] ten_slides_world) None
     (extract (demo_host [] ten_slides_world) slides_job)).1.1
  ≠ Returned
      (flat_map (λ n, js "Slide " ++ toString n ++ js ": "
                      ++ toString n ++ [10; 10])
         [1; 2; 3; 4; 5; 6; 7; 8; 9; 10]).
Proof.
  split; [by vm_compute|]. split; [by vm_compute|].
  vm_compute. discriminate.
Qed.

(** ** Two jobs under one id *)

(** C10. Nothing keeps two submitted jobs from carrying the same id.
    After the first has ended with status [Done], claiming the second
    merges [Processing] into the same record, which leaves its terminal
    status and still shows the result (and [finishedAt]) of the first job;
    after the first has ended with status [Error], the merged record is
    [Processing] and still shows the message of the first job. *)
Theorem same_id_reopens_record :
  id report_job = id resubmitted_job ∧
  submitted (report_done ++ [resubmission]) = [report_job; resubmitted_job] ∧
  submitted (report_failed ++ [resubmission]) = [report_job; resubmitted_job] ∧
  (∃ r r',
     statuses (exec report_done initial) !! id report_job = Some r ∧
     status r = Some Done ∧ is_Some (result r) ∧
     statuses (exec (report_done ++ [resubmission]) initial) !! id report_job
       = Some r' ∧
     status r' = Some Processing ∧
     result r' = result r ∧ finishedAt r' = finishedAt r ∧
     in_flight (exec (report_done ++ [resubmission]) initial)
       = Some resubmitted_job) ∧
  (∃ r r',
     statuses (exec report_failed initial) !! id report_job = Some r ∧
     status r = Some Error ∧ is_Some (message r) ∧
     statuses (exec (report_failed ++ [resubmission]) initial) !! id report_job
       = Some r' ∧
     status r' = Some Processing ∧
     message r' = message r ∧
     in_flight (exec (report_failed ++ [resubmission]) initial)
       = Some resubmitted_job).
Proof.
  split; [done|]. split; [done|]. split; [done|]. split.
  - eexists. eexists.
    split; [vm_compute; reflexivity|]. split; [done|]. split; [by eexists|].
    split; [vm_compute; reflexivity|]. done.
  - eexists. eexists.
    split; [vm_compute; reflexivity|]. split; [done|]. split; [by eexists|].
    split; [vm_compute; reflexivity|]. done.
Qed.

(** * The theorems at concrete inputs *)

Lemma single_flight_witness :
  reachable (exec report_claimed initial) ∧
  processNext (demo_host [] fair_world) (exec report_claimed initial)
  = exec report_claimed initial.
Proof.
  assert (R : reachable (exec report_claimed initial)) by (by eexists).
  split; [exact R|].
  apply (proj1 (single_flight _ R)). reflexivity.
Defined.

Lemma thrown_values_are_recorded_witness :
  run (demo_host [] no_file_world) None
    (processJob_try (demo_host [] no_file_world) report_job)
  = (Threw (new_Error (js "ENOENT: no such file or directory")), None,
     [ReadFileSync (js "/srv/app/uploads/report.pdf")]) ∧
  ∃ n r,
    statuses (Nat.iter n (settle (demo_host [] no_file_world))
                (processJob (demo_host [] no_file_world) report_job
                   (claim (demo_host [] no_file_world) report_job [notes_job]
                      initial)))
      !! id report_job = Some r ∧
    status r = Some Error ∧
    message r = Some (js "ENOENT: no such file or directory").
Proof.
  assert (H : run (demo_host [] no_file_world)
                (cohereClient (claim (demo_host [] no_file_world) report_job
                                 [notes_job] initial))
                (processJob_try (demo_host [] no_file_world) report_job)
              = (Threw (new_Error (js "ENOENT: no such file or directory")),
                 None, [ReadFileSync (js "/srv/app/uploads/report.pdf")]))
    by reflexivity.
  split; [exact H|].
  assert (Hv : new_Error (js "ENOENT: no such file or directory") ≠ Nullish)
    by discriminate.
  destruct (proj1 thrown_values_are_recorded _ _ _ _ _ _ H Hv)
    as (n & r & Hr & Hst & Hmsg & _).
  exists n, r. split; [exact Hr|]. split; [exact Hst|].
  apply Hmsg; [reflexivity|discriminate].
Defined.

Lemma short_text_is_error_witness :
  (length (trim (js "  page 1  ")) < 20)%nat ∧
  ∃ n r,
    statuses (Nat.iter n (settle (demo_host [] blank_pdf_world))
                (processJob (demo_host [] blank_pdf_world) report_job initial))
      !! id report_job = Some r ∧
    status r = Some Error ∧
    message r = Some not_enough_text.
Proof.
  assert (Hlen : (length (trim (js "  page 1  ")) < 20)%nat)
    by (vm_compute; lia).
  split; [exact Hlen|].
  apply (short_text_is_error (demo_host [] blank_pdf_world) report_job initial
           (js "  page 1  ") None
           [ReadFileSync (js "/srv/app/uploads/report.pdf"); PdfParse []]
           eq_refl Hlen).
Defined.

Lemma concept_map_slice_witness :
  In 123 example_response ∧ In 125 example_response ∧
  ((∃ pre inner post,
      trim example_response = pre ++ [123] ++ inner ++ [125] ++ post ∧
      ¬ In 123 pre ∧ ¬ In 125 post ∧
      parseConceptMap example_response = Json.parse ([123] ++ inner ++ [125]))
   ∨ (∃ pre between post,
        trim example_response = pre ++ [125] ++ between ++ [123] ++ post ∧
        ¬ In 123 (pre ++ [125] ++ between) ∧
        ¬ In 125 (between ++ [123] ++ post) ∧
        parseConceptMap example_response = None)).
Proof.
  assert (Hopen : In 123 example_response)
    by (vm_compute; repeat first [left; reflexivity | right]).
  assert (Hclose : In 125 example_response)
    by (vm_compute; repeat first [left; reflexivity | right]).
  split; [exact Hopen|]. split; [exact Hclose|].
  exact (proj1 concept_map_slice example_response Hopen Hclose).
Defined.

Lemma graph_failure_is_not_fatal_witness :
  ¬ In 123 (js "I could not build a concept map.") ∧
  ∃ n r,
    statuses (Nat.iter n (settle (demo_host [] prose_world))
                (processJob (demo_host [] prose_world) report_job initial))
      !! id report_job = Some r ∧
    status r = Some Done ∧
    result r = Some {| summary := js "A summary."; conceptMap := None |}.
Proof.
  assert (Hno : ¬ In 123 (js "I could not build a concept map.")).
  { intros H. vm_compute in H.
    repeat (destruct H as [H|H]; [discriminate H|]). exact H. }
  split; [exact Hno|].
  apply (graph_failure_is_not_fatal (demo_host [] prose_world) report_job
           initial (js "Graphs, trees and how to traverse them.") None
           [ReadFileSync (js "/srv/app/uploads/report.pdf"); PdfParse []]
           {| token := Some (js "secret") |}
           (Some {| token := Some (js "secret") |})
           [EnvCohereApiKey; EnvCohereApiKey;
            NewCohereClient (Some (js "secret"))]
           (js "A summary.") (js "I could not build a concept map.")
           eq_refl eq_refl eq_refl eq_refl eq_refl (or_introl Hno)).
Defined.

Lemma records_are_merged_witness :
  (statuses (exec report_claimed initial) !! id report_job
   = Some {| status := Some Processing;
             startedAt := Some (js "2024-05-01T10:00:00.000Z");
             finishedAt := None; result := None; message := None |} ∧
   ∃ r, statuses (on_return (demo_host (js "2024-05-01T10:00:03.000Z") fair_world)
                    report_job
                    {| summary := js "A summary."; conceptMap := None |}
                    (exec report_claimed initial)) !! id report_job = Some r ∧
        startedAt r = Some (js "2024-05-01T10:00:00.000Z") ∧
        status r = Some Done ∧
        finishedAt r = Some (js "2024-05-01T10:00:03.000Z") ∧
        result r = Some {| summary := js "A summary."; conceptMap := None |} ∧
        message r = None) ∧
  NoDup (map id (submitted two_jobs)) ∧
  ∀ i r, statuses (exec two_jobs initial) !! i = Some r →
    is_Some (startedAt r) ∧
    (is_Some (result r) → status r = Some Done) ∧
    (is_Some (message r) → status r = Some Error).
Proof.
  assert (Hr0 : statuses (exec report_claimed initial) !! id report_job
                = Some {| status := Some Processing;
                          startedAt := Some (js "2024-05-01T10:00:00.000Z");
                          finishedAt := None; result := None;
                          message := None |})
    by (vm_compute; reflexivity).
  assert (Hnd : NoDup (map id (submitted two_jobs))).
  { apply NoDup_cons. split; [|apply NoDup_singleton].
    intros H. apply list_elem_of_singleton in H. discriminate H. }
  split; [|split; [exact Hnd|]].
  - split; [exact Hr0|].
    exact (proj1 (proj1 (proj2 (proj2 (proj2 (proj2 records_are_merged))))
                   (demo_host (js "2024-05-01T10:00:03.000Z") fair_world)
                   report_job
                   {| summary := js "A summary."; conceptMap := None |}
                   Nullish (exec report_claimed initial) _ Hr0)).
  - exact (proj2 (proj2 (proj2 (proj2 (proj2 records_are_merged)))) two_jobs Hnd).
Defined.


(** * Further properties of the module *)

(** ** The queue never stalls *)

Lemma finally_never_stranded mark m s : never_stranded (finally mark m s).
Proof. intros _ Hj. simpl in *. destruct (jobs s); [done|lia]. Qed.

Lemma on_throw_never_stranded job err s : never_stranded (on_throw job err s).
Proof. destruct err; apply finally_never_stranded. Qed.

Lemma advance_never_stranded h job p s :
  workerRunning s = true → never_stranded (advance h job p s).
Proof.
  revert s. induction p as [r|err|c k IH|k IH|cl k IH]; intros s Hw; simpl.
  - apply finally_never_stranded.
  - apply on_throw_never_stranded.
  - destruct (is_async c).
    + intros Hw'. simpl in Hw'. congruence.
    + destruct (answer h c); [by apply IH|apply on_throw_never_stranded].
  - by apply IH.
  - by apply IH.
Qed.

Lemma processNext_never_stranded h s : never_stranded (processNext h s).
Proof.
  unfold processNext.
  destruct (workerRunning s) eqn:Hw; [intros ?; congruence|].
  destruct (jobs s) as [|job rest] eqn:Hj; [by intros _ ?|].
  by apply advance_never_stranded.
Qed.

Lemma step_never_stranded sub h ev s :
  settled sub s → never_stranded s → never_stranded (step h ev s).
Proof.
  intros Hset Hs. destruct ev as [job| |]; simpl.
  - apply processNext_never_stranded.
  - unfold timer. destruct (timers s); [done|apply processNext_never_stranded].
  - unfold settle. destruct (awaiting s) as [t|] eqn:Ht; [|done].
    assert (Hw : workerRunning s = true).
    { destruct Hset as (Hwa & _). apply Hwa. eauto. }
    destruct (answer h (task_call t));
      [by apply advance_never_stranded|apply on_throw_never_stranded].
Qed.

Lemma exec_never_stranded evs : never_stranded (exec evs initial).
Proof.
  induction evs as [|[h ev] evs IH] using rev_ind; [by intros _ ?|].
  rewrite exec_snoc. eapply step_never_stranded; [apply exec_settled|done].
Qed.

Lemma exec_app evs evs' s : exec (evs ++ evs') s = exec evs' (exec evs s).
Proof. unfold exec. by rewrite fold_left_app. Qed.

Lemma exec_settles h n s :
  exec (replicate n (h, PromiseSettles)) s = Nat.iter n (settle h) s.
Proof.
  revert s. induction n as [|n IH]; intros s; [done|].
  rewrite iter_settle_succ. simpl. apply IH.
Qed.

Lemma submitted_quiet h evs : quiet h evs → submitted evs = [].
Proof.
  induction 1 as [|he evs [-> | ->] _ IH]; [done|..]; simpl; by rewrite IH.
Qed.

Lemma submitted_app evs evs' :
  submitted (evs ++ evs') = submitted evs ++ submitted evs'.
Proof. unfold submitted. apply omap_app. Qed.

(** The job in flight ends after finitely many settled promises; the
    queue is as it was. *)
Lemma in_flight_ends h s t :
  awaiting s = Some t →
  ∃ n, workerRunning (Nat.iter n (settle h) s) = false ∧
       jobs (Nat.iter n (settle h) s) = jobs s.
Proof.
  intros Ht.
  assert (Hend : ∀ p, workerRunning (complete h (task_job t) p s) = false
                      ∧ jobs (complete h (task_job t) p s) = jobs s).
  { intros p. unfold complete.
    by destruct (run h (cohereClient s) p) as [[[r|[|msg]] cl] cs]. }
  destruct (answer h (task_call t)) as [x|err] eqn:Hans.
  - destruct (advance_complete h (task_job t) (task_resume t x) s) as [n Hn].
    exists (S n). rewrite iter_settle_succ. unfold settle at 2 4.
    rewrite Ht, Hans, Hn. apply Hend.
  - exists 1%nat. simpl. unfold settle. rewrite Ht, Hans. by destruct err.
Qed.

(** From a state in which the worker is free, timers and settled promises
    empty the queue. *)
Lemma drain_idle h m : ∀ evs,
  length (jobs (exec evs initial)) = m →
  workerRunning (exec evs initial) = false →
  ∃ evs', quiet h evs' ∧
    jobs (exec (evs ++ evs') initial) = [] ∧
    workerRunning (exec (evs ++ evs') initial) = false.
Proof.
  induction m as [|m IH]; intros evs Hlen Hw.
  - exists []. rewrite app_nil_r. split; [constructor|].
    split; [by apply nil_length_inv|done].
  - destruct (jobs (exec evs initial)) as [|job rest] eqn:Hj; [done|].
    assert (Ht : (0 < timers (exec evs initial))%nat).
    { apply exec_never_stranded; [done|]. by rewrite Hj. }
    (* the timer claims the head of the queue *)
    set (s1 := exec (evs ++ [(h, TimerFires)]) initial).
    assert (Hj1 : jobs s1 = rest).
    { unfold s1. rewrite exec_snoc. simpl. unfold timer.
      destruct (timers (exec evs initial)) as [|k]; [lia|].
      unfold processNext. simpl. rewrite Hw, Hj.
      destruct (advance_cases h job (processJob_try h job)
                  (claim h job rest
                     {| statuses := statuses (exec evs initial);
                        jobs := job :: rest;
                        workerRunning := false;
                        cohereClient := cohereClient (exec evs initial);
                        awaiting := awaiting (exec evs initial);
                        timers := k;
                        history := history (exec evs initial) |}))
        as [(cl & c & k' & Heq)|[(cl & r & Heq)|(cl & err & Heq)]];
        unfold processJob; rewrite Heq; [done..|by destruct err]. }
    destruct (workerRunning s1) eqn:Hw1.
    + (* the job is suspended: let its promises settle *)
      assert (Ha : ∃ t, awaiting s1 = Some t).
      { destruct (exec_settled (evs ++ [(h, TimerFires)])) as (Hwa & _).
        destruct (proj1 Hwa Hw1) as [t Ht1]. eauto. }
      destruct Ha as [t Ht1].
      destruct (in_flight_ends h s1 t Ht1) as (n & Hwn & Hjn).
      destruct (IH ((evs ++ [(h, TimerFires)])
                    ++ replicate n (h, PromiseSettles))) as (evs' & Hq & He).
      * rewrite exec_app, exec_settles. fold s1. rewrite Hjn, Hj1.
        simpl in Hlen. lia.
      * rewrite exec_app, exec_settles. done.
      * exists ([(h, TimerFires)] ++ replicate n (h, PromiseSettles) ++ evs').
        split.
        -- apply Forall_app. split; [repeat constructor; by left|].
           apply Forall_app. split; [|done].
           apply Forall_replicate. by right.
        -- by rewrite !app_assoc.
    + (* the job ended within the claim *)
      destruct (IH (evs ++ [(h, TimerFires)])) as (evs' & Hq & He).
      * fold s1. rewrite Hj1. simpl in Hlen. lia.
      * done.
      * exists ([(h, TimerFires)] ++ evs'). split.
        -- apply Forall_app. split; [repeat constructor; by left|done].
        -- by rewrite app_assoc.
Qed.

(** X1. A queued job is never left without a wake-up.  In every reachable
    state in which the worker is free and the queue is not empty, a timer
    set by [finally] is still to run, and its callback claims the head of
    the queue. *)
Theorem pending_jobs_have_a_timer (s : State) job rest :
  reachable s →
  workerRunning s = false →
  jobs s = job :: rest →
  (0 < timers s)%nat ∧
  ∀ h, ∃ s', step h TimerFires s = processJob h job s' ∧
             jobs s' = rest ∧
             history s' = history s ++ [Claimed job].
Proof.
  intros [evs ->] Hw Hj.
  assert (Ht : (0 < timers (exec evs initial))%nat).
  { apply exec_never_stranded; [done|]. by rewrite Hj. }
  split; [done|]. intros h. simpl. unfold timer.
  destruct (timers (exec evs initial)) as [|k]; [lia|].
  unfold processNext. simpl. rewrite Hw, Hj.
  eexists. split; [reflexivity|]. done.
Qed.

(** X2. The queue always drains.  After any run of the event loop, once
    nobody calls [enqueue] any more, finitely many timer callbacks and
    settled promises lead to a state in which the queue is empty, the
    worker is free, every submitted job has been claimed and its
    [processJob] has ended, in submission order, and a record is left with
    status [Processing] only for a job whose [catch] block threw. *)
Theorem queue_drains (evs : list (Host * Event)) (h : Host) :
  ∃ evs', quiet h evs' ∧
    jobs (exec (evs ++ evs') initial) = [] ∧
    workerRunning (exec (evs ++ evs') initial) = false ∧
    awaiting (exec (evs ++ evs') initial) = None ∧
    sequential (history (exec (evs ++ evs') initial)) (submitted evs) None ∧
    ∀ i r, statuses (exec (evs ++ evs') initial) !! i = Some r →
           status r = Some Processing →
           escaped (exec (evs ++ evs') initial) i.
Proof.
  assert (Hidle : ∃ evs1, quiet h evs1 ∧
                    workerRunning (exec (evs ++ evs1) initial) = false).
  { destruct (workerRunning (exec evs initial)) eqn:Hw.
    - destruct (exec_settled evs) as (Hwa & _).
      destruct (proj1 Hwa Hw) as [t Ht].
      destruct (in_flight_ends h _ t Ht) as (n & Hwn & _).
      exists (replicate n (h, PromiseSettles)). split.
      + apply Forall_replicate. by right.
      + by rewrite exec_app, exec_settles.
    - exists []. split; [constructor|]. by rewrite app_nil_r. }
  destruct Hidle as (evs1 & Hq1 & Hw1).
  destruct (drain_idle h _ (evs ++ evs1) eq_refl Hw1) as (evs2 & Hq2 & Hj & Hw).
  exists (evs1 ++ evs2). rewrite app_assoc.
  split; [by apply Forall_app|]. split; [done|]. split; [done|].
  pose proof (exec_settled ((evs ++ evs1) ++ evs2)) as Hset.
  pose proof (settled_idle _ _ Hset Hw) as Hnone.
  destruct Hset as (_ & (claimed & Hseq & Hsub) & Hproc & _).
  unfold in_flight in *. rewrite Hnone in *. simpl in *.
  split; [done|]. split.
  - rewrite Hj, app_nil_r in Hsub.
    rewrite !submitted_app, (submitted_quiet h evs1 Hq1),
      (submitted_quiet h evs2 Hq2), !app_nil_r in Hsub.
    by rewrite Hsub.
  - intros i r Hi Hr.
    by destruct (Hproc i r Hi Hr) as [(job & Hjob & _)|He].
Qed.

Lemma pending_jobs_have_a_timer_witness :
  reachable (exec backlog initial) ∧
  (0 < timers (exec backlog initial))%nat.
Proof.
  assert (R : reachable (exec backlog initial)) by (by eexists).
  split; [exact R|].
  exact (proj1 (pending_jobs_have_a_timer _ slides_job [notes_job] R
                  eq_refl eq_refl)).
Defined.

(** ** The generation stage *)

Lemma long_enough text :
  (20 ≤ length (trim text))%nat → too_short text = false.
Proof.
  intros H. unfold too_short. destruct text; [simpl in H; lia|].
  by apply Nat.ltb_ge.
Qed.

Lemma extract_keeps_client h cl job text cl' cs :
  run h cl (extract h job) = (Returned text, cl', cs) → cl' = cl.
Proof.
  intros Hrun.
  destruct (run_extraction_only h cl _ (extract_extraction_only h job)) as [Hcl _].
  by rewrite Hrun in Hcl.
Qed.

(** X3. A job whose extraction yields at least 20 trimmed code units and
    whose collaborators all answer ends with status [Done]: the calls of
    the extraction come first, then those of [initCohere], then the
    summary chat and only then the graph chat, both on the same extracted
    text; the result holds the summary reply verbatim and the parsed graph
    reply, [finishedAt] is the time of the terminal write, and the client
    stays cached. *)
Theorem job_succeeds h job s text cl0 cs0 cohere cl1 cs1 summaryRes conceptRes :
  run h (cohereClient s) (extract h job) = (Returned text, cl0, cs0) →
  (20 ≤ length (trim text))%nat →
  run h cl0 initCohere = (Returned cohere, cl1, cs1) →
  answer h (Chat cohere chat_model (summary_prompt text) 1400)
    = Returned summaryRes →
  answer h (Chat cohere chat_model (conceptPrompt text) 1400)
    = Returned conceptRes →
  run h (cohereClient s) (processJob_try h job)
  = (Returned {| summary := summaryRes;
                 conceptMap := parseConceptMap conceptRes |},
     cl1,
     cs0 ++ cs1 ++ [Chat cohere chat_model (summary_prompt text) 1400;
                    Chat cohere chat_model (conceptPrompt text) 1400]) ∧
  ∃ n r,
    statuses (Nat.iter n (settle h) (processJob h job s)) !! id job = Some r ∧
    status r = Some Done ∧
    finishedAt r = Some (now h) ∧
    result r = Some {| summary := summaryRes;
                       conceptMap := parseConceptMap conceptRes |} ∧
    cohereClient (Nat.iter n (settle h) (processJob h job s)) = cl1 ∧
    workerRunning (Nat.iter n (settle h) (processJob h job s)) = false.
Proof.
  intros Hext Hlen Hinit Hsum Hmap.
  assert (Htry : run h (cohereClient s) (processJob_try h job)
                 = (Returned {| summary := summaryRes;
                                conceptMap := parseConceptMap conceptRes |},
                    cl1,
                    cs0 ++ cs1 ++
                      [Chat cohere chat_model (summary_prompt text) 1400;
                       Chat cohere chat_model (conceptPrompt text) 1400])).
  { unfold processJob_try, mbind, Prog_bind.
    rewrite run_bind, Hext, (long_enough _ Hlen).
    by rewrite (run_generate _ _ _ _ _ _ _ _ Hinit Hsum Hmap). }
  split; [done|].
  destruct (return_reaches_end _ _ _ _ _ _ Htry) as [n Hn].
  exists n. rewrite Hn. eexists.
  split; [simpl; apply upsert_lookup_eq|]. done.
Qed.

Lemma job_succeeds_witness :
  (20 ≤ length (trim (js "Graphs, trees and how to traverse them.")))%nat ∧
  ∃ n r,
    statuses (Nat.iter n (settle (demo_host (js "noon") fair_world))
                (processJob (demo_host (js "noon") fair_world) report_job
                   initial))
      !! id report_job = Some r ∧
    status r = Some Done ∧
    finishedAt r = Some (js "noon").
Proof.
  assert (Hlen : (20 ≤ length (trim (js "Graphs, trees and how to traverse them.")))%nat)
    by (vm_compute; lia).
  split; [exact Hlen|].
  destruct (proj2 (job_succeeds (demo_host (js "noon") fair_world) report_job
             initial (js "Graphs, trees and how to traverse them.") None
             [ReadFileSync (js "/srv/app/uploads/report.pdf"); PdfParse []]
             {| token := Some (js "secret") |}
             (Some {| token := Some (js "secret") |})
             [EnvCohereApiKey; EnvCohereApiKey;
              NewCohereClient (Some (js "secret"))]
             (js "A summary.") example_response
             eq_refl Hlen eq_refl eq_refl eq_refl))
    as (n & r & Hr & Hst & Hfin & _).
  exists n, r. split; [exact Hr|]. split; [exact Hst|exact Hfin].
Defined.

(** X4. Without an API key the job fails before any chat call.  When no
    client is cached and [process.env.COHERE_API_KEY] is missing or empty,
    a job whose text passed the guard reads the key, throws, and ends with
    status [Error] and the message "COHERE_API_KEY is not set in
    environment"; no client is built and none is cached afterwards, so the
    next job reads the key again. *)
Theorem missing_key_fails_job h job s text cl0 cs0 :
  cohereClient s = None →
  run h (cohereClient s) (extract h job) = (Returned text, cl0, cs0) →
  (20 ≤ length (trim text))%nat →
  answer h EnvCohereApiKey = Returned None
  ∨ answer h EnvCohereApiKey = Returned (Some []) →
  run h (cohereClient s) (processJob_try h job)
  = (Threw (new_Error (js "COHERE_API_KEY is not set in environment")),
     None, cs0 ++ [EnvCohereApiKey]) ∧
  ∃ n r,
    statuses (Nat.iter n (settle h) (processJob h job s)) !! id job = Some r ∧
    status r = Some Error ∧
    message r = Some (js "COHERE_API_KEY is not set in environment") ∧
    cohereClient (Nat.iter n (settle h) (processJob h job s)) = None.
Proof.
  intros Hnone Hext Hlen Hkey.
  pose proof (extract_keeps_client _ _ _ _ _ _ Hext) as ->.
  assert (Htry : run h (cohereClient s) (processJob_try h job)
                 = (Threw (new_Error (js "COHERE_API_KEY is not set in environment")),
                    None, cs0 ++ [EnvCohereApiKey])).
  { unfold processJob_try, mbind, Prog_bind.
    rewrite run_bind, Hext, (long_enough _ Hlen).
    unfold generate, mbind, Prog_bind. rewrite run_bind, Hnone. simpl.
    by destruct Hkey as [-> | ->]. }
  split; [done|].
  destruct (throw_reaches_catch _ _ _ _ _ _ Htry) as [n Hn].
  exists n. rewrite Hn. eexists.
  split; [simpl; apply upsert_lookup_eq|]. done.
Qed.

Lemma missing_key_fails_job_witness :
  cohereClient initial = None ∧
  ∃ n r,
    statuses (Nat.iter n (settle (demo_host [] keyless_world))
                (processJob (demo_host [] keyless_world) notes_job initial))
      !! id notes_job = Some r ∧
    status r = Some Error ∧
    message r = Some (js "COHERE_API_KEY is not set in environment").
Proof.
  split; [reflexivity|].
  assert (Hlen : (20 ≤ length (trim (fallback_text (js ".txt"))))%nat)
    by (vm_compute; lia).
  destruct (proj2 (missing_key_fails_job (demo_host [] keyless_world) notes_job
             initial (fallback_text (js ".txt")) None []
             eq_refl eq_refl Hlen (or_introl eq_refl)))
    as (n & r & Hr & Hst & Hmsg & _).
  exists n, r. split; [exact Hr|]. split; [exact Hst|exact Hmsg].
Defined.



(** ** The cached client *)

Lemma disciplined_bind {A B} b (p : Prog A) (f : A → Prog B) :
  disciplined b p → (∀ a, disciplined false (f a)) → disciplined b (bind p f).
Proof.
  intros Hp Hf.
  induction Hp as [a|err|c k Hc Hk IH|k Hk IH Hnone IHnone|p Hp IH
                  |c k Hc Hk IH|cl k Hk IH]; simpl.
  - apply Hf.
  - constructor.
  - by constructor.
  - by constructor.
  - by apply disciplined_filling.
  - by apply disciplined_sync.
  - by apply disciplined_set.
Qed.

Lemma extraction_only_disciplined {A} (p : Prog A) :
  extraction_only p → disciplined false p.
Proof.
  induction 1 as [a|err|c k Hc Hk IH]; [constructor..|].
  constructor; [by destruct c|done].
Qed.

Lemma initCohere_disciplined : disciplined false initCohere.
Proof.
  apply disciplined_get.
  - intros cl. constructor.
  - apply disciplined_sync; [done|]. intros [[|c key]|].
    + apply disciplined_filling. constructor.
    + apply disciplined_sync; [done|]. intros token.
      apply disciplined_sync; [done|]. intros cl.
      apply disciplined_set. constructor.
    + apply disciplined_filling. constructor.
Qed.

Lemma processJob_try_disciplined h job : disciplined false (processJob_try h job).
Proof.
  unfold processJob_try, mbind, Prog_bind. apply disciplined_bind.
  - apply extraction_only_disciplined, extract_extraction_only.
  - intros text. destruct (too_short text); [constructor|].
    unfold generate, mbind, Prog_bind.
    apply disciplined_bind; [apply initCohere_disciplined|].
    intros cohere. simpl. constructor; [done|]. intros summaryRes.
    constructor; [done|]. intros conceptRes. constructor.
Qed.

Lemma advance_keeps_client h job cl b p :
  disciplined b p → b = false →
  ∀ s, cohereClient s = Some cl → cohereClient (advance h job p s) = Some cl.
Proof.
  induction 1 as [a|err|c k Hc Hk IH|k Hk IH Hnone IHnone|p Hp IH
                 |c k Hc Hk IH|cl' k Hk IH]; intros Hb s Hs; simpl;
    try discriminate Hb.
  - done.
  - by destruct err.
  - destruct (is_async c); [done|].
    destruct (answer h c) as [x|[|msg]]; [by apply IH|done..].
  - rewrite Hs. by apply IH.
Qed.

Lemma advance_suspends_disciplined h job b p :
  disciplined b p →
  ∀ s t, awaiting (advance h job p s) = Some t →
         ∀ x, disciplined false (task_resume t x).
Proof.
  induction 1 as [a|err|c k Hc Hk IH|k Hk IH Hnone IHnone|p Hp IH
                 |c k Hc Hk IH|cl' k Hk IH]; intros s t Ht; simpl in Ht.
  - discriminate Ht.
  - by destruct err.
  - destruct (is_async c).
    + injection Ht as <-. apply Hk.
    + destruct (answer h c) as [x|[|msg]]; [by eapply IH|discriminate Ht..].
  - destruct (cohereClient s); [by eapply IH|by eapply IHnone].
  - by eapply IH.
  - rewrite Hc in Ht.
    destruct (answer h c) as [x|[|msg]]; [by eapply IH|discriminate Ht..].
  - by eapply IH.
Qed.

Lemma exec_suspended_disciplined evs t :
  awaiting (exec evs initial) = Some t →
  ∀ x, disciplined false (task_resume t x).
Proof.
  revert t. induction evs as [|[h ev] evs IH] using rev_ind; intros t Ht.
  - discriminate Ht.
  - rewrite exec_snoc in Ht. destruct ev as [job| |]; simpl in Ht.
    + unfold enqueue, processNext in Ht. simpl in Ht.
      destruct (workerRunning (exec evs initial)); [by apply IH|].
      destruct (jobs (exec evs initial) ++ [job]) as [|j rest];
        [by apply IH|].
      eapply advance_suspends_disciplined;
        [apply (processJob_try_disciplined h j)|exact Ht].
    + unfold timer in Ht. destruct (timers (exec evs initial)); [by apply IH|].
      unfold processNext in Ht. simpl in Ht.
      destruct (workerRunning (exec evs initial)); [by apply IH|].
      destruct (jobs (exec evs initial)) as [|j rest]; [by apply IH|].
      eapply advance_suspends_disciplined;
        [apply (processJob_try_disciplined h j)|exact Ht].
    + unfold settle in Ht.
      destruct (awaiting (exec evs initial)) as [t0|] eqn:Ht0; [|congruence].
      destruct (answer h (task_call t0)) as [y|[|msg]]; [|discriminate Ht..].
      eapply advance_suspends_disciplined; [apply (IH t0 eq_refl y)|exact Ht].
Qed.

Lemma step_keeps_client evs h ev cl :
  cohereClient (exec evs initial) = Some cl →
  cohereClient (step h ev (exec evs initial)) = Some cl.
Proof.
  intros Hcl. destruct ev as [job| |]; simpl.
  - unfold enqueue, processNext. simpl.
    destruct (workerRunning (exec evs initial)); [done|].
    destruct (jobs (exec evs initial) ++ [job]) as [|j rest]; [done|].
    by eapply advance_keeps_client; [apply processJob_try_disciplined|..].
  - unfold timer. destruct (timers (exec evs initial)); [done|].
    unfold processNext. simpl.
    destruct (workerRunning (exec evs initial)); [done|].
    destruct (jobs (exec evs initial)) as [|j rest]; [done|].
    by eapply advance_keeps_client; [apply processJob_try_disciplined|..].
  - unfold settle.
    destruct (awaiting (exec evs initial)) as [t|] eqn:Ht; [|done].
    destruct (answer h (task_call t)) as [y|[|msg]]; [|done..].
    by eapply advance_keeps_client;
      [apply (exec_suspended_disciplined evs t Ht y)|..].
Qed.

Lemma run_keeps_client {A} h cl b (p : Prog A) :
  disciplined b p → b = false →
  (run h (Some cl) p).1.2 = Some cl ∧
  Forall (λ c, is_init_call c = false) (run h (Some cl) p).2.
Proof.
  induction 1 as [a|err|c k Hc Hk IH|k Hk IH Hnone IHnone|p Hp IH
                 |c k Hc Hk IH|cl' k Hk IH]; intros Hb; simpl;
    try discriminate Hb.
  - done.
  - done.
  - destruct (answer h c) as [x|err].
    + destruct (IH x Hb) as [Hcl Hcs].
      destruct (run h (Some cl) (k x)) as [[o cl''] cs]. simpl in *.
      split; [done|by constructor].
    + simpl. split; [done|by constructor].
  - by apply IH.
Qed.

(** X6. The chat client is built once and then reused.  Once
    [cohereClient] holds a client, no later event of the loop replaces or
    clears it, whatever the jobs and the answers of the collaborators; and
    a job that starts with a cached client neither reads the API key nor
    builds a client. *)
Theorem client_is_built_once :
  (∀ evs evs' cl,
     cohereClient (exec evs initial) = Some cl →
     cohereClient (exec (evs ++ evs') initial) = Some cl) ∧
  (∀ h job cl,
     (run h (Some cl) (processJob_try h job)).1.2 = Some cl ∧
     Forall (λ c, is_init_call c = false)
       (run h (Some cl) (processJob_try h job)).2).
Proof.
  split.
  - intros evs evs' cl Hcl.
    induction evs' as [|[h ev] evs' IH] using rev_ind.
    + by rewrite app_nil_r.
    + rewrite app_assoc, exec_snoc. by apply step_keeps_client.
  - intros h job cl.
    by apply (run_keeps_client h cl false _ (processJob_try_disciplined h job)).
Qed.

Lemma client_is_built_once_witness :
  cohereClient (exec report_done initial) = Some {| token := Some (js "secret") |} ∧
  cohereClient (exec (report_done ++ [resubmission]) initial)
  = Some {| token := Some (js "secret") |}.
Proof.
  assert (H : cohereClient (exec report_done initial)
              = Some {| token := Some (js "secret") |}) by reflexivity.
  split; [exact H|].
  exact (proj1 client_is_built_once report_done [resubmission] _ H).
Defined.

(** ** The concept map *)

Lemma deliver_rooted v stack ps :
  bottom_is_object stack = true →
  Json.deliver v stack = Some ps → rooted ps.
Proof.
  intros Hb Hd. destruct stack as [|[items|ms [key|]] rest]; simpl in Hd;
    try discriminate; injection Hd as <-; simpl;
    destruct rest as [|f rest]; simpl in *; try done.
Qed.

Lemma parse_step_rooted ps t ps' :
  rooted ps → Json.parse_step ps t = Some ps' → rooted ps'.
Proof.
  destruct ps as [stack e]. intros Hr Hs.
  assert (Hb : bottom_is_object stack = true ∨ stack = []).
  { destruct stack; [by right|by left]. }
  destruct Hb as [Hb | ->].
  - assert (Hpush : ∀ f, bottom_is_object (f :: stack) = true).
    { intros f. simpl. destruct stack; [done|]. by destruct f. }
    assert (Hclose : ∀ f rest, stack = f :: rest → rest ≠ [] →
                               bottom_is_object rest = true).
    { intros f rest -> Hne. simpl in Hb. destruct rest; [done|].
      by destruct f. }
    destruct e, t; simpl in Hs; try discriminate;
      try (by eapply deliver_rooted);
      try (injection Hs as <-; simpl; try apply Hpush; try done;
           by destruct stack);
      try (destruct stack as [|[items|ms [key|]] rest]; simpl in Hs;
           try discriminate;
           first
             [ injection Hs as <-; simpl in *; by destruct rest
             | destruct rest as [|f rest];
               [ simpl in Hs; try discriminate; injection Hs as <-; by simpl
               | eapply deliver_rooted; [|exact Hs];
                 by eapply Hclose ] ]).
  - destruct e; simpl in Hr; try done.
Qed.

Lemma parse_tokens_rooted ts : ∀ ps v,
  rooted ps → Json.parse_tokens ps ts = Some v → ∃ members, v = Json.JObject members.
Proof.
  induction ts as [|t ts IH]; intros ps v Hr Hp; simpl in Hp.
  - destruct ps as [[|f stack] e]; [|discriminate].
    destruct e; try discriminate. injection Hp as ->.
    simpl in Hr. destruct v; try done. eauto.
  - destruct (Json.parse_step ps t) as [ps'|] eqn:Hs; [|discriminate].
    eapply IH; [|exact Hp]. by eapply parse_step_rooted.
Qed.

(** A text that starts with an opening brace parses to an object or not
    at all. *)
Lemma parse_braced r v :
  Json.parse (123 :: r) = Some v → ∃ members, v = Json.JObject members.
Proof.
  unfold Json.parse, Json.lex. simpl.
  destruct (Json.lex_from Json.LStart r) as [ts|]; [|discriminate].
  simpl. intros Hp. by eapply parse_tokens_rooted; [|exact Hp].
Qed.

Lemma indexOf_found s c : indexOf s c ≠ (-1)%Z → In c s.
Proof.
  intros H. destruct (in_dec N.eq_dec c s) as [Hin|Hin]; [done|].
  by rewrite indexOf_absent in H.
Qed.

(** X7. The concept map of a result is [null] or a JSON object, never an
    array, a string, a number or a boolean: the slice handed to
    [JSON.parse] starts at an opening brace. *)
Theorem concept_map_is_null_or_object text v :
  parseConceptMap text = Some v → ∃ members, v = Json.JObject members.
Proof.
  unfold parseConceptMap.
  destruct (Z.eqb_spec (indexOf (trim text) 123) (-1)) as [|Hstart];
    [discriminate|].
  destruct (Z.eqb_spec (lastIndexOf (trim text) 125) (-1)); [discriminate|].
  simpl. intros Hp.
  destruct (indexOf_first _ _ (indexOf_found _ _ Hstart))
    as (pre & post & Hraw & _ & Hi).
  rewrite Hi in Hp. unfold slice in Hp.
  assert (Hclamp : clamp_index (Z.of_nat (length (trim text)))
                     (Z.of_nat (length pre)) = Z.of_nat (length pre)).
  { unfold clamp_index. destruct (Z.ltb_spec (Z.of_nat (length pre)) 0); [lia|].
    rewrite Hraw at 1. rewrite length_app. lia. }
  rewrite Hclamp, Nat2Z.id in Hp.
  rewrite Hraw in Hp at 3. rewrite drop_app_length in Hp.
  destruct (Z.to_nat _) in Hp; simpl in Hp.
  - discriminate Hp.
  - by eapply parse_braced.
Qed.

Lemma concept_map_is_null_or_object_witness :
  ∃ v members, parseConceptMap example_response = Some v
               ∧ v = Json.JObject members.
Proof.
  assert (H : parseConceptMap example_response
              = Some (Json.JObject
                        [(js "nodes",
                          Json.JArray
                            [Json.JObject
                               [(js "id", Json.JString (js "A"));
                                (js "label", Json.JString (js "X"))]]);
                         (js "edges", Json.JArray [])]))
    by (vm_compute; reflexivity).
  destruct (concept_map_is_null_or_object _ _ H) as [members Hm].
  eexists. exists members. split; [exact H|exact Hm].
Defined.

(** ** The registry over time *)

Lemma advance_other h job p s i :
  i ≠ id job → statuses (advance h job p s) !! i = statuses s !! i.
Proof.
  intros Hi.
  assert (Hret : ∀ r s', statuses (on_return h job r s') !! i = statuses s' !! i).
  { intros r s'. unfold on_return, finally. simpl. by apply upsert_lookup_ne. }
  assert (Hthrow : ∀ err s', statuses (on_throw job err s') !! i = statuses s' !! i).
  { intros [|msg] s'; unfold on_throw, finally; simpl; [done|].
    by apply upsert_lookup_ne. }
  revert s. induction p as [r|err|c k IH|k IH|cl k IH]; intros s; simpl.
  - apply Hret.
  - apply Hthrow.
  - destruct (is_async c); [done|].
    destruct (answer h c); [apply IH|apply Hthrow].
  - apply IH.
  - apply (IH (with_client (Some cl) s)).
Qed.

Lemma claim_fresh_id sub job rest s i r :
  NoDup (map id sub) → tidy sub s → jobs s = job :: rest →
  statuses s !! i = Some r → i ≠ id job.
Proof.
  intros Hnd (claimed & Hsub & Hrec) Hj Hi ->.
  destruct (Hrec _ _ Hi) as [_ Hin].
  rewrite Hsub, Hj, map_app in Hnd. simpl in Hnd.
  apply NoDup_app in Hnd as (_ & Hnd & _).
  apply (Hnd _ Hin). left.
Qed.

Lemma processNext_terminal_kept sub h s i r :
  NoDup (map id sub) → tidy sub s →
  statuses s !! i = Some r →
  statuses (processNext h s) !! i = Some r.
Proof.
  intros Hnd Ht Hi. unfold processNext.
  destruct (workerRunning s); [done|].
  destruct (jobs s) as [|job rest] eqn:Hj; [done|].
  pose proof (claim_fresh_id _ _ _ _ _ _ Hnd Ht Hj Hi) as Hne.
  unfold processJob. rewrite advance_other by done.
  unfold claim. simpl. by rewrite upsert_lookup_ne.
Qed.

Lemma step_terminal_kept sub h ev s i r :
  NoDup (map id (sub ++ match ev with Enqueue job => [job] | _ => [] end)) →
  settled sub s → tidy sub s →
  statuses s !! i = Some r → is_terminal (status r) = true →
  statuses (step h ev s) !! i = Some r.
Proof.
  intros Hnd Hs Ht Hi Hterm. destruct ev as [job| |]; simpl.
  - unfold enqueue.
    eapply processNext_terminal_kept; [exact Hnd| |done].
    destruct Ht as (claimed & Hsub & Hrec).
    exists claimed. split; [|done]. simpl. rewrite Hsub. by rewrite <- app_assoc.
  - rewrite app_nil_r in Hnd. unfold timer. destruct (timers s); [done|].
    by eapply processNext_terminal_kept.
  - unfold settle. destruct (awaiting s) as [t|] eqn:Hta; [|done].
    assert (Hne : i ≠ id (task_job t)).
    { intros ->. destruct Hs as (_ & _ & _ & Hrec).
      destruct (Hrec (task_job t)) as (r' & Hr' & Hst').
      { unfold in_flight. by rewrite Hta. }
      rewrite Hi in Hr'. injection Hr' as <-. rewrite Hst' in Hterm. done. }
    destruct (answer h (task_call t)) as [x|[|msg]].
    + by rewrite advance_other.
    + done.
    + unfold on_throw, finally. simpl. by rewrite upsert_lookup_ne.
Qed.

(** X8. With pairwise distinct job ids a terminal record is final: once
    the record of an id has status [Done] or [Error], no later event
    changes any of its properties. *)
Theorem terminal_records_are_final evs evs' i r :
  NoDup (map id (submitted (evs ++ evs'))) →
  statuses (exec evs initial) !! i = Some r →
  is_terminal (status r) = true →
  statuses (exec (evs ++ evs') initial) !! i = Some r.
Proof.
  intros Hnd Hi Hterm.
  induction evs' as [|[h ev] evs' IH] using rev_ind.
  - by rewrite app_nil_r.
  - rewrite app_assoc in *. rewrite exec_snoc. rewrite submitted_snoc in Hnd.
    assert (Hnd' : NoDup (map id (submitted (evs ++ evs')))).
    { rewrite map_app in Hnd. by apply NoDup_app in Hnd as (? & _). }
    eapply step_terminal_kept;
      [exact Hnd|apply exec_settled|by apply exec_tidy|by apply IH|done].
Qed.

Lemma terminal_records_are_final_witness :
  NoDup (map id (submitted (report_done
                            ++ [(demo_host [] fair_world, Enqueue notes_job)]))) ∧
  statuses (exec (report_done
                  ++ [(demo_host [] fair_world, Enqueue notes_job)]) initial)
    !! id report_job
  = statuses (exec report_done initial) !! id report_job.
Proof.
  assert (Hnd : NoDup (map id (submitted
                  (report_done
                   ++ [(demo_host [] fair_world, Enqueue notes_job)])))).
  { apply NoDup_cons. split; [|apply NoDup_singleton].
    intros H. apply list_elem_of_singleton in H. discriminate H. }
  split; [exact Hnd|].
  destruct (statuses (exec report_done initial) !! id report_job)
    as [r|] eqn:Hr; [|vm_compute in Hr; discriminate Hr].
  assert (Hterm : is_terminal (status r) = true).
  { vm_compute in Hr. injection Hr as <-. reflexivity. }
  exact (terminal_records_are_final _ _ _ _ Hnd Hr Hterm).
Defined.

(** ** Records and their status *)

Lemma on_return_neat sub h job res s :
  busy sub job s → neat sub s → neat sub (on_return h job res s).
Proof.
  intros (_ & _ & _ & (r0 & Hr0 & Hst0)) (claimed & Hsub & Hrec).
  exists claimed. split; [done|]. unfold on_return, finally. simpl.
  intros i r Hi. destruct (decide (id job = i)) as [<-|Hij].
  - destruct (Hrec _ _ Hr0) as [[Hs0 Hshape0] Hin]. split; [|done].
    rewrite upsert_lookup_eq, Hr0 in Hi. injection Hi as <-.
    rewrite Hst0 in Hshape0. destruct Hshape0 as (Hfin0 & Hres0 & Hmsg0).
    unfold full_shape. simpl. rewrite Hmsg0. simpl. eauto.
  - rewrite upsert_lookup_ne in Hi by done. by apply Hrec.
Qed.

Lemma on_throw_neat sub job err s :
  busy sub job s → neat sub s → neat sub (on_throw job err s).
Proof.
  intros (_ & _ & _ & (r0 & Hr0 & Hst0)) (claimed & Hsub & Hrec).
  destruct err as [|msg]; [by exists claimed|].
  exists claimed. split; [done|]. unfold on_throw, finally. simpl.
  intros i r Hi. destruct (decide (id job = i)) as [<-|Hij].
  - destruct (Hrec _ _ Hr0) as [[Hs0 Hshape0] Hin]. split; [|done].
    rewrite upsert_lookup_eq, Hr0 in Hi. injection Hi as <-.
    rewrite Hst0 in Hshape0. destruct Hshape0 as (Hfin0 & Hres0 & Hmsg0).
    unfold full_shape. simpl. rewrite Hfin0, Hres0. simpl. eauto.
  - rewrite upsert_lookup_ne in Hi by done. by apply Hrec.
Qed.

Lemma advance_neat sub h job p s :
  busy sub job s → neat sub s → neat sub (advance h job p s).
Proof.
  revert s. induction p as [r|err|c k IH|k IH|cl k IH]; intros s Hb Ht; simpl.
  - by apply on_return_neat.
  - by apply on_throw_neat.
  - destruct (is_async c); [done|].
    destruct (answer h c); [by apply IH|by apply on_throw_neat].
  - by apply IH.
  - by apply IH.
Qed.

Lemma claim_neat sub h job rest s :
  NoDup (map id sub) → neat sub s → jobs s = job :: rest →
  neat sub (claim h job rest s).
Proof.
  intros Hnd (claimed & Hsub & Hrec) Hj.
  exists (claimed ++ [job]). split.
  { simpl. rewrite Hsub, Hj. by rewrite <- app_assoc. }
  assert (Hfresh : statuses s !! id job = None).
  { destruct (statuses s !! id job) as [r|] eqn:Hr; [|done].
    destruct (Hrec _ _ Hr) as [_ Hin].
    rewrite Hsub, Hj, map_app in Hnd. simpl in Hnd.
    apply NoDup_app in Hnd as (_ & Hnd & _).
    exfalso. apply (Hnd _ Hin). left. }
  simpl. intros i r Hi. rewrite map_app. simpl.
  destruct (decide (id job = i)) as [<-|Hij].
  - rewrite upsert_lookup_eq, Hfresh in Hi. injection Hi as <-.
    split; [|apply elem_of_app; right; constructor].
    unfold full_shape. simpl. eauto.
  - rewrite upsert_lookup_ne in Hi by done.
    destruct (Hrec _ _ Hi) as [Hshape Hin].
    split; [done|apply elem_of_app; by left].
Qed.

Lemma processNext_neat sub h s :
  NoDup (map id sub) → settled sub s → neat sub s →
  neat sub (processNext h s).
Proof.
  intros Hnd Hs Ht. unfold processNext.
  destruct (workerRunning s) eqn:Hw; [done|].
  destruct (jobs s) as [|job rest] eqn:Hj; [done|].
  apply advance_neat; [by apply claim_busy|by apply claim_neat].
Qed.

Lemma step_neat sub h ev s :
  NoDup (map id (sub ++ match ev with Enqueue job => [job] | _ => [] end)) →
  settled sub s → neat sub s →
  neat (sub ++ match ev with Enqueue job => [job] | _ => [] end) (step h ev s).
Proof.
  intros Hnd Hs Ht. destruct ev as [job| |]; simpl.
  - unfold enqueue. apply processNext_neat; [done| |].
    + destruct Hs as (Hwa & (claimed & Hseq & Hsub) & Hproc).
      split; [done|split; [|done]].
      exists claimed. split; [done|]. simpl. rewrite Hsub. by rewrite <- app_assoc.
    + destruct Ht as (claimed & Hsub & Hrec).
      exists claimed. split; [|done]. simpl. rewrite Hsub. by rewrite <- app_assoc.
  - rewrite app_nil_r in *. unfold timer. destruct (timers s); [done|].
    by apply processNext_neat.
  - rewrite app_nil_r in *. unfold settle.
    destruct (awaiting s) as [t|] eqn:Hta; [|done].
    pose proof (settled_busy _ _ _ Hs Hta) as Hb.
    destruct (answer h (task_call t));
      [by apply advance_neat|by apply on_throw_neat].
Qed.

Lemma exec_neat evs :
  NoDup (map id (submitted evs)) → neat (submitted evs) (exec evs initial).
Proof.
  induction evs as [|[h ev] evs IH] using rev_ind; intros Hnd.
  - exists []. split; [done|]. intros i r Hi. simpl in Hi.
    by rewrite lookup_empty in Hi.
  - rewrite exec_snoc, submitted_snoc in *.
    apply step_neat; [done|apply exec_settled|].
    apply IH. rewrite map_app in Hnd. by apply NoDup_app in Hnd as (? & _).
Qed.

(** X10. With pairwise distinct job ids the status of a record tells
    exactly which properties it has: every record has a status; it has
    [finishedAt] and [result] exactly when the status is [Done], and
    [message] exactly when the status is [Error]; a [Processing] record
    has [startedAt] and nothing else. *)
Theorem status_determines_fields evs :
  NoDup (map id (submitted evs)) →
  ∀ i r, statuses (exec evs initial) !! i = Some r →
    is_Some (status r) ∧
    (is_Some (finishedAt r) ↔ status r = Some Done) ∧
    (is_Some (result r) ↔ status r = Some Done) ∧
    (is_Some (message r) ↔ status r = Some Error).
Proof.
  intros Hnd i r Hi.
  destruct (exec_neat evs Hnd) as (claimed & _ & Hrec).
  destruct (Hrec _ _ Hi) as [[_ Hshape] _].
  destruct (status r) as [[| |]|]; [| | |done].
  - destruct Hshape as (-> & -> & ->).
    repeat split; try done; by intros [? ?].
  - destruct Hshape as (Hf & Hr & ->).
    repeat split; try done; by intros [? ?].
  - destruct Hshape as (-> & -> & Hm).
    repeat split; try done; by intros [? ?].
Qed.

Lemma status_determines_fields_witness :
  NoDup (map id (submitted two_jobs)) ∧
  ∀ i r, statuses (exec two_jobs initial) !! i = Some r →
    (is_Some (finishedAt r) ↔ status r = Some Done).
Proof.
  assert (Hnd : NoDup (map id (submitted two_jobs))).
  { apply NoDup_cons. split; [|apply NoDup_singleton].
    intros H. apply list_elem_of_singleton in H. discriminate H. }
  split; [exact Hnd|].
  intros i r Hi.
  exact (proj1 (proj2 (status_determines_fields two_jobs Hnd i r Hi))).
Defined.

(** ** Presentations *)

Lemma lt_units_irrefl a : lt_units a a = false.
Proof.
  induction a as [|x a IH]; [done|]. simpl.
  rewrite N.ltb_irrefl, N.eqb_refl. done.
Qed.







Lemma run_pptx h cl job buffer zip :
  dispatch (toLowerCase (fullPath h job)) = PPTX →
  answer h (ReadFileSync (fullPath h job)) = Returned buffer →
  answer h (LoadAsync buffer) = Returned zip →
  run h cl (extract h job)
  = let '(o, cl', cs) := run h cl (slides_loop zip (slideFiles zip) 0 []) in
    (o, cl', ReadFileSync (fullPath h job) :: LoadAsync buffer :: cs).
Proof.
  intros Hd Hread Hload. unfold extract. rewrite Hd.
  unfold mbind, Prog_bind. cbn [bind run]. rewrite Hread.
  cbn [bind run]. rewrite Hload.
  by destruct (run h cl (slides_loop zip (slideFiles zip) 0 [])) as [[o cl'] cs].
Qed.



Lemma run_slides_loop_fails h cl zip read xmls name unread err i text :
  Forall2 (λ name xml, answer h (EntryText zip name) = Returned xml) read xmls →
  answer h (EntryText zip name) = Threw err →
  run h cl (slides_loop zip (read ++ name :: unread) i text)
  = (Threw err, cl, map (EntryText zip) (read ++ [name])).
Proof.
  intros Hall Hfail. revert i text.
  induction Hall as [|n xml read xmls Hans Hall IH]; intros i text; simpl.
  - by rewrite Hfail.
  - by rewrite Hans, IH.
Qed.

(** X12. One unreadable slide fails the whole job.  If reading a slide
    entry is rejected, the slides after it are never read and the text of
    the slides before it is dropped; when the reason of the rejection is
    not [null] or [undefined], the job ends with status [Error] and the
    message of the rejection. *)
Theorem unreadable_slide_fails_job
    h job s buffer zip read xmls name unread err :
  dispatch (toLowerCase (fullPath h job)) = PPTX →
  answer h (ReadFileSync (fullPath h job)) = Returned buffer →
  answer h (LoadAsync buffer) = Returned zip →
  slideFiles zip = read ++ name :: unread →
  Forall2 (λ name xml, answer h (EntryText zip name) = Returned xml) read xmls →
  answer h (EntryText zip name) = Threw err →
  run h (cohereClient s) (processJob_try h job)
  = (Threw err, cohereClient s,
     ReadFileSync (fullPath h job) :: LoadAsync buffer
       :: map (EntryText zip) (read ++ [name])) ∧
  (err ≠ Nullish →
   ∃ n r,
     statuses (Nat.iter n (settle h) (processJob h job s)) !! id job = Some r ∧
     status r = Some Error ∧
     message r = Some (error_message err)).
Proof.
  intros Hd Hread Hload Hfiles Hall Hfail.
  assert (Htry : run h (cohereClient s) (processJob_try h job)
                 = (Threw err, cohereClient s,
                    ReadFileSync (fullPath h job) :: LoadAsync buffer
                      :: map (EntryText zip) (read ++ [name]))).
  { unfold processJob_try, mbind, Prog_bind.
    rewrite run_bind, (run_pptx _ _ _ _ _ Hd Hread Hload), Hfiles.
    by rewrite (run_slides_loop_fails _ _ _ _ _ _ _ _ _ _ Hall Hfail). }
  split; [done|]. intros Hv.
  destruct (throw_reaches_catch _ _ _ _ _ _ Htry) as [n Hn].
  exists n. rewrite Hn. destruct err as [|msg]; [done|]. eexists.
  split; [unfold on_throw, finally; simpl; apply upsert_lookup_eq|]. done.
Qed.

Lemma unreadable_slide_fails_job_witness :
  answer torn_host
    (EntryText {| files := map fst (deck ten_slides_world) |}
       (js "ppt/slides/slide2.xml"))
  = Threw (new_Error (js "Corrupted zip: missing 12 bytes")) ∧
  ∃ n r,
    statuses (Nat.iter n (settle torn_host)
                (processJob torn_host slides_job initial))
      !! id slides_job = Some r ∧
    status r = Some Error ∧
    message r = Some (js "Corrupted zip: missing 12 bytes").
Proof.
  split; [reflexivity|].
  exact (proj2 (unreadable_slide_fails_job torn_host slides_job initial []
                  {| files := map fst (deck ten_slides_world) |}
                  [js "ppt/slides/slide1.xml"; js "ppt/slides/slide10.xml"]
                  [js "<p:sld><a:t>1</a:t></p:sld>";
                   js "<p:sld><a:t>10</a:t></p:sld>"]
                  (js "ppt/slides/slide2.xml")
                  (map (λ n, js "ppt/slides/slide" ++ toString n ++ js ".xml")
                     [3; 4; 5; 6; 7; 8; 9])
                  (new_Error (js "Corrupted zip: missing 12 bytes"))
                  eq_refl eq_refl eq_refl
                  ltac:(vm_compute; reflexivity)
                  ltac:(repeat constructor) eq_refl)
           ltac:(discriminate)).
Defined.

(** ** Dispatch on the suffix *)

Lemma startsWith_spec s p : startsWith s p = true ↔ ∃ r, s = p ++ r.
Proof.
  revert s. induction p as [|x p IH]; intros s; simpl.
  - destruct s; simpl; (split; [eauto|done]).
  - destruct s as [|y s]; [split; [done|by intros [? ?]]|].
    simpl. rewrite andb_true_iff, N.eqb_eq, IH. split.
    + intros [-> [r ->]]. by exists r.
    + intros [r [= -> ->]]. eauto.
Qed.

Lemma endsWith_spec s p : endsWith s p = true ↔ ∃ r, s = r ++ p.
Proof.
  unfold endsWith. rewrite startsWith_spec. split.
  - intros [r Hr]. exists (rev r).
    rewrite <- (rev_involutive s), Hr, rev_app_distr, rev_involutive. done.
  - intros [r ->]. exists (rev r). by rewrite rev_app_distr.
Qed.

(** Two suffixes of one string: the shorter is a suffix of the longer. *)
Lemma endsWith_both s a b :
  endsWith s a = true → endsWith s b = true →
  (length a ≤ length b)%nat → endsWith b a = true.
Proof.
  rewrite !endsWith_spec. intros [ra ->] [rb Heq] Hlen.
  apply (f_equal (@rev N)) in Heq. rewrite !rev_app_distr in Heq.
  apply app_eq_app in Heq as [l [[H1 H2]|[H1 H2]]].
  - assert (l = []) as ->.
    { apply (f_equal (@length N)) in H1.
      rewrite length_app, !length_rev in H1. destruct l; [done|simpl in H1; lia]. }
    rewrite app_nil_r in H1. exists []. simpl.
    apply (f_equal (@rev N)) in H1. by rewrite !rev_involutive in H1.
  - exists (rev l). apply (f_equal (@rev N)) in H1.
    by rewrite rev_app_distr, !rev_involutive in H1.
Qed.

Lemma endsWith_excludes s a b :
  endsWith s a = true → endsWith a b = false → endsWith b a = false →
  endsWith s b = false.
Proof.
  intros Ha Hab Hba. destruct (endsWith s b) eqn:Hb; [|done].
  destruct (Nat.le_ge_cases (length a) (length b)) as [Hl|Hl].
  - by rewrite (endsWith_both _ _ _ Ha Hb Hl) in Hba.
  - by rewrite (endsWith_both _ _ _ Hb Ha Hl) in Hab.
Qed.

Lemma toLowerCase_app a b : toLowerCase (a ++ b) = toLowerCase a ++ toLowerCase b.
Proof. unfold toLowerCase. apply flat_map_app. Qed.

(** X13. The branch of a job is decided by its suffix alone.  No path can
    end with two of the six handled suffixes, so the order in which
    [processJob] tests them never matters: a lower-cased path that ends
    with a handled suffix takes the branch of that suffix, and the
    fallback branch is taken exactly when none matches.  Upper and lower
    case are the same: a path followed by any spelling of a handled
    suffix takes that branch. *)
Theorem suffix_decides_branch :
  (∀ ext suffix format,
     (suffix, format) ∈ branch_of_suffix →
     endsWith ext suffix = true → dispatch ext = format) ∧
  (∀ ext,
     dispatch ext = FALLBACK ↔
     Forall (λ suffix, endsWith ext suffix = false) handled_suffixes) ∧
  (∀ path spelling suffix format,
     (suffix, format) ∈ branch_of_suffix →
     toLowerCase spelling = suffix →
     dispatch (toLowerCase (path ++ spelling)) = format).
Proof.
  assert (Hfirst : ∀ ext suffix format,
            (suffix, format) ∈ branch_of_suffix →
            endsWith ext suffix = true → dispatch ext = format).
  { intros ext suffix format Hin Hends. unfold branch_of_suffix in Hin.
    assert (Hx : ∀ b, endsWith suffix b = false → endsWith b suffix = false →
                      endsWith ext b = false).
    { intros b. by apply endsWith_excludes. }
    unfold dispatch.
    repeat (apply elem_of_cons in Hin as [[= -> ->]|Hin]);
      [..|by apply elem_of_nil in Hin];
      rewrite ?Hends, ?(Hx (js ".pdf")), ?(Hx (js ".pptx")), ?(Hx (js ".docx")),
        ?(Hx (js ".png")), ?(Hx (js ".jpg")), ?(Hx (js ".jpeg")) by reflexivity;
      rewrite ?orb_true_r; reflexivity. }
  split; [exact Hfirst|]. split.
  - intros ext. unfold handled_suffixes, dispatch. split.
    + intros Hd.
      destruct (endsWith ext (js ".pdf")) eqn:?; [discriminate Hd|].
      destruct (endsWith ext (js ".pptx")) eqn:?; [discriminate Hd|].
      destruct (endsWith ext (js ".docx")) eqn:?; [discriminate Hd|].
      destruct (endsWith ext (js ".png")) eqn:?; [discriminate Hd|].
      destruct (endsWith ext (js ".jpg")) eqn:?; [discriminate Hd|].
      destruct (endsWith ext (js ".jpeg")) eqn:?; [discriminate Hd|].
      repeat constructor; assumption.
    + intros Hall. repeat (apply Forall_cons in Hall as [? Hall]).
      repeat match goal with H : endsWith _ _ = false |- _ => rewrite H; clear H end.
      done.
  - intros path spelling suffix format Hin <-.
    apply (Hfirst _ _ _ Hin). rewrite toLowerCase_app.
    apply endsWith_spec. eauto.
Qed.

Lemma suffix_decides_branch_witness :
  (js ".jpeg", IMAGE) ∈ branch_of_suffix ∧
  toLowerCase (js ".JPeG") = js ".jpeg" ∧
  dispatch (toLowerCase (js "/srv/app/uploads/Scan" ++ js ".JPeG")) = IMAGE.
Proof.
  assert (Hin : (js ".jpeg", IMAGE) ∈ branch_of_suffix)
    by (unfold branch_of_suffix; repeat first [left | right]).
  split; [exact Hin|]. split; [reflexivity|].
  exact (proj2 (proj2 suffix_decides_branch) _ (js ".JPeG") _ _ Hin eq_refl).
Defined.

(** ** The path of a job *)

Lemma relativePath_slash p : relativePath (47 :: p) = p.
Proof.
  unfold relativePath.
  assert (startsWith (47 :: p) (js "/") = true) as -> by (by destruct p).
  change 1%Z with (Z.of_nat 1).
  rewrite slice_within by (simpl; lia).
  simpl. rewrite Nat.sub_0_r. by rewrite take_ge.
Qed.

(** X14. A leading slash of [savedLocation] is ignored, and only one: the
    locations [/p] and [p] (with [p] not starting with a slash) resolve to
    the same path and the job runs the same program for both, while
    [//p] resolves like [/p] joined to the working directory. *)
Theorem leading_slash_is_dropped :
  (∀ p, relativePath (47 :: p) = p) ∧
  (∀ s, startsWith s (js "/") = false → relativePath s = s) ∧
  (∀ h i p,
     startsWith p (js "/") = false →
     fullPath h {| id := i; savedLocation := 47 :: p |}
     = path_join h (cwd h) p ∧
     processJob_try h {| id := i; savedLocation := 47 :: p |}
     = processJob_try h {| id := i; savedLocation := p |}).
Proof.
  split; [apply relativePath_slash|]. split.
  - intros s Hs. unfold relativePath. by rewrite Hs.
  - intros h i p Hp.
    assert (Hfull : fullPath h {| id := i; savedLocation := 47 :: p |}
                    = fullPath h {| id := i; savedLocation := p |}).
    { unfold fullPath. cbn [savedLocation]. rewrite relativePath_slash.
      unfold relativePath. by rewrite Hp. }
    split.
    + rewrite Hfull. unfold fullPath, relativePath. cbn [savedLocation].
      by rewrite Hp.
    + unfold processJob_try, extract. by rewrite Hfull.
Qed.

Lemma leading_slash_is_dropped_witness :
  startsWith (js "uploads/report.pdf") (js "/") = false ∧
  processJob_try (demo_host [] fair_world) report_job
  = processJob_try (demo_host [] fair_world)
      {| id := js "job-1"; savedLocation := js "uploads/report.pdf" |}.
Proof.
  split; [reflexivity|].
  exact (proj2 (proj2 (proj2 leading_slash_is_dropped)
                  (demo_host [] fair_world) (js "job-1")
                  (js "uploads/report.pdf") eq_refl)).
Defined.

(** ** The cleaned text of a slide *)

Lemma replace_spaces_single b s :
  single_spaced b (replace_spaces_from b s) = true.
Proof.
  revert b. induction s as [|c r IH]; intros b; simpl; [done|].
  destruct (is_space c) eqn:Hc.
  - destruct b; [apply IH|]. simpl. apply IH.
  - simpl. rewrite Hc. apply IH.
Qed.

Lemma single_spaced_weaken b s :
  single_spaced b s = true → single_spaced false s = true.
Proof.
  destruct s as [|c r]; simpl; [done|].
  destruct (is_space c); [|done]. destruct b; [|done].
  by rewrite andb_false_r.
Qed.

Lemma single_spaced_lookup s : ∀ b,
  single_spaced b s = true →
  (∀ i u, s !! i = Some u → is_space u = true → u = 32) ∧
  (∀ i u v, s !! i = Some u → s !! S i = Some v →
            is_space u = true → is_space v = false).
Proof.
  induction s as [|c r IH]; intros b Hs; [by split|].
  simpl in Hs. destruct (is_space c) eqn:Hc.
  - apply andb_true_iff in Hs as [Hs Hr].
    apply andb_true_iff in Hs as [Hc32 _]. apply N.eqb_eq in Hc32.
    destruct (IH true Hr) as [H1 H2]. split.
    + intros [|i] u Hu Hsp; simpl in Hu; [congruence|exact (H1 _ _ Hu Hsp)].
    + intros [|i] u v Hu Hv Hsp; simpl in Hu, Hv; [|exact (H2 _ _ _ Hu Hv Hsp)].
      destruct r as [|d r']; [done|]. simpl in Hv. injection Hv as ->.
      simpl in Hr. destruct (is_space v); [|done].
      by rewrite andb_false_r in Hr.
  - destruct (IH false Hs) as [H1 H2]. split.
    + intros [|i] u Hu Hsp; simpl in Hu; [congruence|exact (H1 _ _ Hu Hsp)].
    + intros [|i] u v Hu Hv Hsp; simpl in Hu, Hv; [congruence|exact (H2 _ _ _ Hu Hv Hsp)].
Qed.

Lemma trimStart_suffix s : ∃ w, s = w ++ trimStart s.
Proof.
  induction s as [|c r [w Hw]]; [by exists []|]. simpl.
  destruct (is_space c); [|by exists []].
  exists (c :: w). simpl. by rewrite <- Hw.
Qed.

Lemma trimEnd_prefix s : ∃ w, s = trimEnd s ++ w.
Proof.
  unfold trimEnd. destruct (trimStart_suffix (rev s)) as [w Hw].
  exists (rev w). rewrite <- rev_app_distr, <- Hw. by rewrite rev_involutive.
Qed.

Lemma trimStart_head s c :
  head (trimStart s) = Some c → is_space c = false.
Proof.
  induction s as [|x r IH]; simpl; [done|].
  destruct (is_space x) eqn:Hx; [done|]. simpl. by intros [= <-].
Qed.

Lemma trim_head s c : head (trim s) = Some c → is_space c = false.
Proof.
  unfold trim. destruct (trimEnd_prefix (trimStart s)) as [w Hw].
  intros Hh. apply (trimStart_head s).
  rewrite Hw. by destruct (trimEnd (trimStart s)).
Qed.

Lemma trim_last s c : last (trim s) = Some c → is_space c = false.
Proof.
  unfold trim, trimEnd.
  assert (Hrev : ∀ l : jsstring, last (rev l) = head l).
  { intros [|x l]; simpl; [done|apply last_snoc]. }
  rewrite Hrev. apply trimStart_head.
Qed.

(** X15. The cleaned text of a slide is one line of words: every white
    space unit in it is a plain space, no two white space units are
    adjacent, and it neither starts nor ends with white space. *)
Theorem cleaned_slide_is_single_spaced slideXml :
  (∀ i u, clean_slide slideXml !! i = Some u → is_space u = true → u = 32) ∧
  (∀ i u v, clean_slide slideXml !! i = Some u →
            clean_slide slideXml !! S i = Some v →
            is_space u = true → is_space v = false) ∧
  (∀ u, head (clean_slide slideXml) = Some u → is_space u = false) ∧
  (∀ u, last (clean_slide slideXml) = Some u → is_space u = false).
Proof.
  unfold clean_slide.
  set (r := replace_spaces (replace_tags slideXml)).
  destruct (single_spaced_lookup r false (replace_spaces_single false _))
    as [H1 H2].
  destruct (trimStart_suffix r) as [w Hw].
  destruct (trimEnd_prefix (trimStart r)) as [w' Hw'].
  fold (trim r) in Hw'.
  assert (Hlook : ∀ i u, trim r !! i = Some u → r !! (length w + i)%nat = Some u).
  { intros i u Hu. rewrite Hw, Hw'.
    rewrite lookup_app_r by lia.
    replace (length w + i - length w)%nat with i by lia.
    by apply lookup_app_l_Some. }
  split; [|split; [|split]].
  - intros i u Hu. by apply (H1 _ _ (Hlook _ _ Hu)).
  - intros i u v Hu Hv. apply (H2 (length w + i)%nat); [by apply Hlook|].
    replace (S (length w + i)) with (length w + S i)%nat by lia.
    by apply Hlook.
  - apply trim_head.
  - apply trim_last.
Qed.

(** ** The guard at its bounds *)

Lemma trimStart_all_space s : Forall (λ c, is_space c = true) s → trimStart s = [].
Proof. induction 1 as [|c r Hc Hr IH]; simpl; [done|]. by rewrite Hc. Qed.

Lemma trimStart_pad pad s :
  Forall (λ c, is_space c = true) pad → trimStart (pad ++ s) = trimStart s.
Proof. induction 1 as [|c r Hc Hr IH]; simpl; [done|]. by rewrite Hc. Qed.

Lemma trimEnd_pad s pad :
  Forall (λ c, is_space c = true) pad → trimEnd (s ++ pad) = trimEnd s.
Proof.
  intros Hp. unfold trimEnd. rewrite rev_app_distr, trimStart_pad; [done|].
  by apply Forall_rev.
Qed.

Lemma trimEnd_word word :
  Forall (λ c, is_space c = false) word → trimEnd word = word.
Proof.
  destruct word as [|x word _] using rev_ind; [done|].
  intros Hw. apply Forall_app in Hw as [_ Hx].
  apply trimEnd_keep. by inversion Hx.
Qed.

(** X16. The guard rejects exactly the texts with fewer than 20 code
    units after trimming: the emptiness test in front of it changes
    nothing, a text of 20 trimmed units passes, and a text made of white
    space only is rejected however long it is. *)
Theorem guard_bounds :
  (∀ text, too_short text = true ↔ (length (trim text) < 20)%nat) ∧
  (∀ text, Forall (λ c, is_space c = true) text → too_short text = true) ∧
  (∀ pad pad' word,
     Forall (λ c, is_space c = true) pad →
     Forall (λ c, is_space c = true) pad' →
     Forall (λ c, is_space c = false) word →
     too_short (pad ++ word ++ pad') = Nat.ltb (length word) 20).
Proof.
  assert (Hiff : ∀ text, too_short text = true ↔ (length (trim text) < 20)%nat).
  { intros text. split; [|apply too_short_spec].
    unfold too_short. destruct text; [simpl; lia|]. by apply Nat.ltb_lt. }
  split; [exact Hiff|]. split.
  - intros text Hall. apply Hiff. unfold trim.
    rewrite (trimStart_all_space _ Hall). simpl. lia.
  - intros pad pad' word Hp Hp' Hw.
    assert (Htrim : trim (pad ++ word ++ pad') = word).
    { unfold trim. rewrite (trimStart_pad _ _ Hp).
      destruct Hw as [|c word Hc Hw].
      - simpl. by rewrite (trimStart_all_space _ Hp').
      - simpl. rewrite Hc.
        change (c :: word ++ pad') with ((c :: word) ++ pad').
        rewrite (trimEnd_pad _ _ Hp'). apply trimEnd_word. by constructor. }
    destruct (Nat.ltb (length word) 20) eqn:Hlt.
    + apply Hiff. rewrite Htrim. by apply Nat.ltb_lt.
    + apply Nat.ltb_ge in Hlt.
      destruct (too_short (pad ++ word ++ pad')) eqn:Hts; [|done].
      apply Hiff in Hts. rewrite Htrim in Hts. lia.
Qed.

Lemma guard_bounds_witness :
  Forall (λ c, is_space c = true) (js "  ") ∧
  too_short (js "  " ++ js "page1" ++ [32; 10]) = true.
Proof.
  assert (Hp : Forall (λ c, is_space c = true) (js "  "))
    by (repeat constructor).
  split; [exact Hp|].
  exact (proj2 (proj2 guard_bounds) (js "  ") [32; 10] (js "page1") Hp
           ltac:(repeat constructor) ltac:(repeat constructor)).
Defined.

(** ** What [enqueue] does at once *)

Lemma advance_started h job p s r0 :
  statuses s !! id job = Some r0 → is_Some (status r0) →
  ∃ r, statuses (advance h job p s) !! id job = Some r ∧
       startedAt r = startedAt r0 ∧ is_Some (status r).
Proof.
  intros Hr0 Hst0.
  assert (Hret : ∀ res s', statuses s' !! id job = Some r0 →
            ∃ r, statuses (on_return h job res s') !! id job = Some r ∧
                 startedAt r = startedAt r0 ∧ is_Some (status r)).
  { intros res s' Hs'. eexists.
    split; [unfold on_return, finally; simpl; apply upsert_lookup_eq|].
    rewrite Hs'. simpl. eauto. }
  assert (Hthrow : ∀ err s', statuses s' !! id job = Some r0 →
            ∃ r, statuses (on_throw job err s') !! id job = Some r ∧
                 startedAt r = startedAt r0 ∧ is_Some (status r)).
  { intros [|msg] s' Hs'; [by exists r0|]. eexists.
    split; [unfold on_throw, finally; simpl; apply upsert_lookup_eq|].
    rewrite Hs'. simpl. eauto. }
  revert s Hr0. induction p as [r|err|c k IH|k IH|cl k IH]; intros s Hr0; simpl.
  - by apply Hret.
  - by apply Hthrow.
  - destruct (is_async c); [by exists r0|].
    destruct (answer h c); [by apply IH|by apply Hthrow].
  - by apply IH.
  - by apply IH.
Qed.

Lemma advance_jobs h job p s : jobs (advance h job p s) = jobs s.
Proof.
  revert s. induction p as [r|err|c k IH|k IH|cl k IH]; intros s; simpl.
  - done.
  - apply on_throw_rest.
  - destruct (is_async c); [done|].
    destruct (answer h c); [apply IH|apply on_throw_rest].
  - apply IH.
  - apply (IH (with_client (Some cl) s)).
Qed.

(** X17. What a caller of [enqueue] finds when the call returns.  If the
    worker was free and the queue empty, the job has already been claimed:
    its record exists, with a status and with [startedAt] set to the time
    of the call, and the queue is empty again.  If the worker was busy,
    the job has only been appended to the queue: the registry, the job in
    flight, the timers and the history are untouched. *)
Theorem enqueue_claims_or_queues h job s :
  (workerRunning s = false → jobs s = [] →
   ∃ r, statuses (enqueue h job s) !! id job = Some r ∧
        startedAt r = Some (now h) ∧
        is_Some (status r) ∧
        jobs (enqueue h job s) = []) ∧
  (workerRunning s = true →
   jobs (enqueue h job s) = jobs s ++ [job] ∧
   statuses (enqueue h job s) = statuses s ∧
   awaiting (enqueue h job s) = awaiting s ∧
   workerRunning (enqueue h job s) = true ∧
   timers (enqueue h job s) = timers s ∧
   history (enqueue h job s) = history s).
Proof.
  split.
  - intros Hw Hj. unfold enqueue, processNext. simpl. rewrite Hw, Hj. simpl.
    unfold processJob.
    match goal with |- context [advance h job ?p ?st] =>
      destruct (advance_started h job p st
                  (spread (default empty_record (statuses s !! id job))
                     {| status := Some Processing; startedAt := Some (now h);
                        finishedAt := None; result := None; message := None |}))
        as (r & Hr & Hs & Hst);
        [unfold claim; simpl; apply upsert_lookup_eq|simpl; eauto|]
    end.
    exists r. split; [exact Hr|]. split; [by rewrite Hs|]. split; [done|].
    by rewrite advance_jobs.
  - intros Hw. unfold enqueue, processNext. simpl. by rewrite Hw.
Qed.

Lemma enqueue_claims_or_queues_witness :
  workerRunning initial = false ∧ jobs initial = [] ∧
  ∃ r, statuses (enqueue (demo_host (js "noon") fair_world) report_job initial)
         !! id report_job = Some r ∧
       startedAt r = Some (js "noon").
Proof.
  split; [reflexivity|]. split; [reflexivity|].
  destruct (proj1 (enqueue_claims_or_queues
                     (demo_host (js "noon") fair_world) report_job initial)
              eq_refl eq_refl) as (r & Hr & Hs & _).
  exists r. split; [exact Hr|exact Hs].
Defined.
